(** * dag_checker: acyclicity check of a commit graph (Kahn's algorithm)

    Shallow embedding of [src/dag_checker/dag_checker.py] and the
    verification of its specification.

    - A Python [dict] is an insertion-ordered association list: a store to
      an existing key keeps the key's position and replaces the value, a
      store to a new key appends.
    - [adj] and [in_degree] are lists read and written by index; an index
      that is out of range raises [IndexError], a missing dict key raises
      [KeyError].
    - The [while queue] loop is a fuel-indexed fixpoint; the fuel is shown
      to be immaterial once it reaches the number of nodes.
    - For the claim about side effects the function is modelled a second
      time over a store of list objects with identities, and related to
      the first model. *)

From stdpp Require Import base tactics option list strings relations numbers gmap.

Open Scope list_scope.

(** ** Outcomes of a call *)

(** [KeyError(k)]: [d[k]] for a missing key.  [IndexError]: [l[i]] out of
    range.  [TypeError]: an object is not of the type the code expects (only
    in the store model, for stores that are not well-formed). *)
Inductive exn : Type :=
  | KeyError (k : string)
  | IndexError
  | TypeError.

Inductive result (A : Type) : Type :=
  | Returns (a : A)
  | Raises (e : exn)
  | OutOfFuel.
Arguments Returns {A} a.
Arguments Raises {A} e.
Arguments OutOfFuel {A}.

Definition bind {A B} (m : result A) (k : A → result B) : result B :=
  match m with
  | Returns a => k a
  | Raises e => Raises e
  | OutOfFuel => OutOfFuel
  end.

Notation "'do' x <- m ; k" := (bind m (λ x, k))
  (at level 10, x pattern, m at level 100, k at level 200,
   format "'[v' 'do'  x  <-  m ; '/' k ']'").

(** [for x in xs: st = body st x], stopping at the first exception. *)
Fixpoint for_each {S X} (body : S → X → result S) (xs : list X) (st : S) : result S :=
  match xs with
  | [] => Returns st
  | x :: xs' => do st' <- body st x; for_each body xs' st'
  end.

(** ** Python containers *)

(** Insertion-ordered dictionary with string keys. *)
Abbreviation dict V := (list (string * V)).

(** [d[k] = v] *)
Fixpoint dict_set {V} (d : dict V) (k : string) (v : V) : dict V :=
  match d with
  | [] => [(k, v)]
  | (k', v') :: d' =>
      if decide (k' = k) then (k', v) :: d' else (k', v') :: dict_set d' k v
  end.

Fixpoint dict_get {V} (d : dict V) (k : string) : option V :=
  match d with
  | [] => None
  | (k', v') :: d' => if decide (k' = k) then Some v' else dict_get d' k
  end.

(** [d[k]] as an expression. *)
Definition dict_item {V} (d : dict V) (k : string) : result V :=
  match dict_get d k with
  | Some v => Returns v
  | None => Raises (KeyError k)
  end.

Definition dict_keys {V} (d : dict V) : list string := d.*1.

(** [l[i]] as an expression, for [0 <= i]. *)
Definition list_item {A} (l : list A) (i : nat) : result A :=
  match l !! i with
  | Some x => Returns x
  | None => Raises IndexError
  end.

(** ** The function *)

Definition commit : Type := string * list string.

(** Lines 5-7: [parent_map[commit_id] = parents.copy()]. *)
Definition build_parent_map (commit_list : list commit) : dict (list string) :=
  foldl (λ parent_map '(commit_id, parents), dict_set parent_map commit_id parents)
        [] commit_list.

(** Lines 12-14: [id_to_index[cid] = idx] over [enumerate(parent_map.keys())]. *)
Definition build_id_to_index (keys : list string) : dict nat :=
  foldl (λ id_to_index '(idx, cid), dict_set id_to_index cid idx)
        [] (zip (seq 0 (length keys)) keys).

(** Lines 24-25: [adj[u].append(v); in_degree[v] += 1]. *)
Definition add_edge (u v : nat) (g : list (list nat) * list Z)
  : result (list (list nat) * list Z) :=
  let '(adj, in_degree) := g in
  do row <- list_item adj u;
  let adj := <[u := row ++ [v]]> adj in
  do d <- list_item in_degree v;
  Returns (adj, <[v := (d + 1)%Z]> in_degree).

(** Lines 22-25: [for pid in parents]. *)
Definition add_parents (id_to_index : dict nat) (u : nat) (parents : list string)
    (g : list (list nat) * list Z) : result (list (list nat) * list Z) :=
  for_each (λ g pid,
      do v <- dict_item id_to_index pid;
      add_edge u v g)
    parents g.

(** Lines 20-25: [for cid, parents in parent_map.items()]. *)
Definition build_graph (id_to_index : dict nat) (parent_map : dict (list string))
    (g : list (list nat) * list Z) : result (list (list nat) * list Z) :=
  for_each (λ g '(cid, parents),
      do u <- dict_item id_to_index cid;
      add_parents id_to_index u parents g)
    parent_map g.

(** Lines 27-30. *)
Definition init_queue (n : nat) (in_degree : list Z) : result (list nat) :=
  for_each (λ queue idx,
      do d <- list_item in_degree idx;
      if decide (d = 0%Z) then Returns (queue ++ [idx]) else Returns queue)
    (seq 0 n) [].

(** Lines 37-39, one neighbour. *)
Definition relax (st : list Z * list nat) (neighbor : nat) : result (list Z * list nat) :=
  let '(in_degree, queue) := st in
  do d <- list_item in_degree neighbor;
  let in_degree := <[neighbor := (d - 1)%Z]> in_degree in
  do d' <- list_item in_degree neighbor;
  if decide (d' = 0%Z) then Returns (in_degree, queue ++ [neighbor])
  else Returns (in_degree, queue).

(** Lines 32-39: the work-queue loop; one unit of fuel per iteration. *)
Fixpoint kahn_loop (fuel : nat) (adj : list (list nat)) (in_degree : list Z)
    (queue : list nat) (visited_count : nat) : result nat :=
  match queue with
  | [] => Returns visited_count
  | node :: queue =>
      match fuel with
      | 0 => OutOfFuel
      | S fuel =>
          do row <- list_item adj node;
          do st <- for_each relax row (in_degree, queue);
          kahn_loop fuel adj st.1 st.2 (visited_count + 1)
      end
  end.

(** Lines 12-39 for a non-empty [parent_map]: the pair [(visited_count, n)]. *)
Definition kahn_count (fuel : nat) (parent_map : dict (list string)) : result (nat * nat) :=
  let id_to_index := build_id_to_index (dict_keys parent_map) in
  let n := length id_to_index in
  let adj := replicate n [] in
  let in_degree := replicate n 0%Z in
  do g <- build_graph id_to_index parent_map (adj, in_degree);
  do queue <- init_queue n g.2;
  do visited_count <- kahn_loop fuel g.1 g.2 queue 0;
  Returns (visited_count, n).

(** Lines 9-41, from the parent map on. *)
Definition check_parent_map (fuel : nat) (parent_map : dict (list string)) : result bool :=
  match parent_map with
  | [] => Returns true
  | _ => do c <- kahn_count fuel parent_map; Returns (bool_decide (c.1 = c.2))
  end.

Definition is_acyclic_fuel (fuel : nat) (commit_list : list commit) : result bool :=
  check_parent_map fuel (build_parent_map commit_list).

(** The loop runs at most once per node and there are at most
    [length commit_list] nodes ([is_acyclic_fuel_enough] below), so this
    fuel never runs out. *)
Definition is_acyclic (commit_list : list commit) : result bool :=
  is_acyclic_fuel (length commit_list) commit_list.

(** ** The function over a store of list objects

    The argument is a reference to a list object holding [(id, parents)]
    tuples, where [parents] is a reference to a list object of ids.  The
    store keeps every object that is reachable from the argument or that the
    function stores a reference to; [id_to_index], [adj], [in_degree] and
    [queue] are created by the function, never stored in another object and
    never obtained from the argument, and stay values. *)

Abbreviation loc := positive.

Inductive object : Type :=
  | Commits (items : list (string * loc))
  | Parents (items : list string).

Abbreviation heap := (gmap loc object).

(** A new object with a fresh identity. *)
Definition alloc (h : heap) (o : object) : loc * heap :=
  let l := fresh (dom h) in (l, <[l := o]> h).

(** Lines 6-7: [parent_map[commit_id] = parents.copy()] for each tuple.
    [parents.copy()] reads the object at [parents] and allocates a new list
    object with the same items; the store is threaded through the loop. *)
Fixpoint store_copies (items : list (string * loc)) (parent_map : dict loc)
    (h : heap) : result (dict loc) * heap :=
  match items with
  | [] => (Returns parent_map, h)
  | (commit_id, parents) :: items' =>
      match h !! parents with
      | Some (Parents ps) =>
          let c := alloc h (Parents ps) in
          store_copies items' (dict_set parent_map commit_id c.1) c.2
      | _ => (Raises TypeError, h)
      end
  end.

(** [parent_map.items()], each value read through its reference. *)
Fixpoint items_of (h : heap) (parent_map : dict loc) : result (dict (list string)) :=
  match parent_map with
  | [] => Returns []
  | (cid, l) :: parent_map' =>
      match h !! l with
      | Some (Parents ps) => do rest <- items_of h parent_map'; Returns ((cid, ps) :: rest)
      | _ => Raises TypeError
      end
  end.

(** The whole function: the outcome and the store it leaves. *)
Definition is_acyclic_heap (h : heap) (commit_list : loc) : result bool * heap :=
  match h !! commit_list with
  | Some (Commits items) =>
      let st := store_copies items [] h in
      (do parent_map <- st.1;
       do parent_map <- items_of st.2 parent_map;
       check_parent_map (length items) parent_map, st.2)
  | _ => (Raises TypeError, h)
  end.

(** The object at [commit_list] is the declaration sequence [cl]. *)
Definition represents (h : heap) (commit_list : loc) (cl : list commit) : Prop :=
  ∃ items, h !! commit_list = Some (Commits items) ∧
    Forall2 (λ (it : string * loc) (d : commit),
               it.1 = d.1 ∧ h !! it.2 = Some (Parents d.2)) items cl.

(** ** The graph a declaration sequence describes *)

(** The parent list of the last declaration of [x]. *)
Fixpoint effective_parents (commit_list : list commit) (x : string)
  : option (list string) :=
  match commit_list with
  | [] => None
  | (c, ps) :: rest =>
      match effective_parents rest x with
      | Some ps' => Some ps'
      | None => if decide (c = x) then Some ps else None
      end
  end.

(** [x] is the declared identifier of some declaration. *)
Definition declared (commit_list : list commit) (x : string) : Prop :=
  x ∈ commit_list.*1.

(** Child-to-parent edge after override resolution. *)
Definition edge (commit_list : list commit) : relation string :=
  λ x y, ∃ ps, effective_parents commit_list x = Some ps ∧ y ∈ ps.

(** A non-empty walk [n0 → n1 → … → nk] with [n0 = nk]. *)
Definition has_cycle (commit_list : list commit) : Prop :=
  ∃ x, tc (edge commit_list) x x.

(** Every parent id written anywhere in the sequence is declared. *)
Definition all_parents_declared (commit_list : list commit) : Prop :=
  ∀ c ps p, (c, ps) ∈ commit_list → p ∈ ps → declared commit_list p.

(** Every parent id of an effective parent list is declared. *)
Definition effective_parents_declared (commit_list : list commit) : Prop :=
  ∀ x y, edge commit_list x y → declared commit_list y.

(** ** Inputs the specification speaks about *)

(** The sequence with every non-final declaration of each identifier removed. *)
Fixpoint final_declarations (commit_list : list commit) : list commit :=
  match commit_list with
  | [] => []
  | (c, ps) :: rest =>
      if decide (c ∈ rest.*1) then final_declarations rest
      else (c, ps) :: final_declarations rest
  end.

(** Declarations [c1 ← [prev]; c2 ← [c1]; …] for [ids = [c1; c2; …]]. *)
Fixpoint chain_from (prev : string) (ids : list string) : list commit :=
  match ids with
  | [] => []
  | c :: ids' => (c, [prev]) :: chain_from c ids'
  end.

(** A chain: a root without parents, then every node declaring the previous one. *)
Definition chain (root : string) (ids : list string) : list commit :=
  (root, []) :: chain_from root ids.

(** The chain with the root's parent list redirected to the latest node. *)
Definition closed_chain (root : string) (ids : list string) : list commit :=
  (root, [default root (last ids)]) :: chain_from root ids.

(** Two sequences that describe the same nodes and edges. *)
Definition same_graph (commit_list1 commit_list2 : list commit) : Prop :=
  (∀ x, declared commit_list1 x ↔ declared commit_list2 x) ∧
  (∀ x y, edge commit_list1 x y ↔ edge commit_list2 x y).

(** ** The index graph and the loop invariant

    Definitions used to state what lines 12-41 compute. *)

(** Number of occurrences of [v] in [l]. *)
Definition count (v : nat) (l : list nat) : nat := length (filter (v =.) l).

(** [adj[u]], empty out of range. *)
Definition row (adj : list (list nat)) (u : nat) : list nat := default [] (adj !! u).

(** Heads of all edges leaving the nodes [us], with multiplicity. *)
Definition targets (adj : list (list nat)) (us : list nat) : list nat := us ≫= row adj.

Definition iedge (adj : list (list nat)) : relation nat := λ u v, v ∈ row adj u.

Definition adj_closed (adj : list (list nat)) : Prop :=
  ∀ u v, v ∈ row adj u → v < length adj.

(** [in_degree] counts the edges of [adj], once per occurrence. *)
Definition degrees_of (adj : list (list nat)) (in_degree : list Z) : Prop :=
  length in_degree = length adj ∧
  ∀ v, v < length adj → in_degree !! v = Some (Z.of_nat (count v (concat adj))).

(** State of the loop: [seen] are the nodes dequeued so far, [pending] the
    neighbours of the last dequeued node that are still to be relaxed. *)
Record kahn_inv (adj : list (list nat)) (seen pending : list nat)
    (in_degree : list Z) (queue : list nat) : Prop := {
  inv_nodup : NoDup (seen ++ queue);
  inv_range : ∀ v, v ∈ seen ++ queue → v < length adj;
  inv_pend : ∀ v, v ∈ pending → v < length adj;
  inv_len : length in_degree = length adj;
  inv_deg : ∀ v, v < length adj →
    in_degree !! v =
      Some (Z.of_nat (count v (concat adj)) - Z.of_nat (count v (targets adj seen))
            + Z.of_nat (count v pending))%Z;
  inv_zero : ∀ v, v < length adj → v ∈ seen ++ queue ↔ in_degree !! v = Some 0%Z;
  inv_acyc : ∀ v, v ∈ seen ++ queue → ¬ tc (iedge adj) v v
}.

(** The boolean [b] answers the question "is there no cycle?". *)
Definition verdict (b : bool) (cyclic : Prop) : Prop :=
  if b then ¬ cyclic else cyclic.

(** A walk [x_k → … → x_1 → x_0], listed from its last edge's tail. *)
Fixpoint walk (adj : list (list nat)) (l : list nat) : Prop :=
  match l with
  | [] => True
  | a :: l' => match l' with [] => True | b :: _ => iedge adj a b end ∧ walk adj l'
  end.

(** What the loop has established when the queue runs empty. *)
Definition kahn_final (adj : list (list nat)) (seen : list nat) : Prop :=
  NoDup seen ∧ (∀ u, u ∈ seen → u < length adj) ∧
  (∀ u, u ∈ seen → ¬ tc (iedge adj) u u) ∧
  (∀ v, v < length adj → ¬ v ∈ seen →
     ∃ u, u < length adj ∧ ¬ u ∈ seen ∧ iedge adj u v).

(** The index the function assigns to [p]. *)
Definition index_of (id_to_index : dict nat) (p : string) : nat :=
  default 0 (dict_get id_to_index p).

(** The adjacency lists the function builds when every parent is declared. *)
Definition adj_of (id_to_index : dict nat) (parent_map : dict (list string))
  : list (list nat) :=
  (λ e : string * list string, index_of id_to_index <$> e.2) <$> parent_map.

(** [x] lists [y] among its parents. *)
Definition pm_edge (parent_map : dict (list string)) : relation string :=
  λ x y, ∃ ps, dict_get parent_map x = Some ps ∧ y ∈ ps.

(** Every parent is a key. *)
Definition pm_closed (parent_map : dict (list string)) : Prop :=
  Forall (λ e : string * list string, Forall (λ p, p ∈ dict_keys parent_map) e.2)
         parent_map.

Definition key_of (parent_map : dict (list string)) (u : nat) : string :=
  default String.EmptyString (dict_keys parent_map !! u).

Global Instance pm_closed_dec parent_map : Decision (pm_closed parent_map).
Proof. unfold pm_closed. apply _. Defined.

Global Instance all_parents_declared_dec commit_list :
  Decision (all_parents_declared commit_list).
Proof.
  destruct (decide (Forall (λ e : commit,
              Forall (λ p, p ∈ commit_list.*1) e.2) commit_list)) as [Hall|Hnot].
  - left. intros c ps p Hc Hp. rewrite Forall_forall in Hall.
    specialize (Hall _ Hc). rewrite Forall_forall in Hall. by apply Hall.
  - right. intros H. apply Hnot. apply Forall_forall. intros [c ps] Hc.
    apply Forall_forall. intros p Hp. by apply (H c ps).
Defined.

(** ** Further notions used to describe the function *)

(** The first parent, in the iteration order of lines 20-22, that is not a
    key of the dictionary. *)
Definition first_undeclared (parent_map : dict (list string)) : option string :=
  head (filter (λ p, ¬ p ∈ dict_keys parent_map) (concat parent_map.*2)).

(** ** Example inputs *)

Section example_inputs.
Local Open Scope string_scope.
Local Open Scope list_scope.

(** A store with the list [[("A", ["B"]); ("B", []); ("A", ["B"])]] whose
    first and last tuple share one parent list object. *)
Definition example_heap : heap :=
  <[1%positive := Commits [("A", 2%positive); ("B", 3%positive); ("A", 2%positive)]]>
  (<[2%positive := Parents ["B"]]> (<[3%positive := Parents []]> ∅)).

End example_inputs.

(** ** Scenarios of the test-suite *)

Section scenarios.
Local Open Scope string_scope.
Local Open Scope list_scope.

Example test_single_root : is_acyclic [("root", [])] = Returns true.
Proof. vm_compute. reflexivity. Qed.

Example test_linear_chain :
  is_acyclic [("a1", []); ("b2", ["a1"]); ("c3", ["b2"])] = Returns true.
Proof. vm_compute. reflexivity. Qed.

Example test_simple_merge :
  is_acyclic [("root", []); ("x", ["root"]); ("y", ["root"]); ("m", ["x"; "y"])]
  = Returns true.
Proof. vm_compute. reflexivity. Qed.

Example test_direct_cycle : is_acyclic [("A", ["B"]); ("B", ["A"])] = Returns false.
Proof. vm_compute. reflexivity. Qed.

Example test_indirect_cycle :
  is_acyclic [("A", ["B"]); ("B", ["C"]); ("C", ["A"])] = Returns false.
Proof. vm_compute. reflexivity. Qed.

Example test_multiple_roots_and_branches :
  is_acyclic [("root1", []); ("root2", []); ("a1", ["root1"]); ("b1", ["root2"]);
              ("m", ["a1"; "b1"])] = Returns true.
Proof. vm_compute. reflexivity. Qed.

Example test_override_creates_cycle :
  is_acyclic [("root1", ["mergeX"]); ("root2", []); ("devA", ["root1"]);
              ("devB", ["devA"]); ("mergeX", ["devB"; "devA"])] = Returns false.
Proof. vm_compute. reflexivity. Qed.

Example test_override_still_cyclic :
  is_acyclic [("A", ["B"]); ("B", ["C"]); ("C", ["A"]); ("A", ["C"])] = Returns false.
Proof. vm_compute. reflexivity. Qed.

(** The store model runs: both tuples of ["A"] share one parent list. *)
Example test_store_run : (is_acyclic_heap example_heap 1).1 = Returns true.
Proof. vm_compute. reflexivity. Qed.

(** The key a faulting call raises depends on the iteration order of the
    dictionary, which removing overridden declarations can change. *)
Example test_raised_key_order :
  is_acyclic [("A", ["X"]); ("B", ["Y"]); ("A", ["Z"])] = Raises (KeyError "Z") ∧
  is_acyclic (final_declarations [("A", ["X"]); ("B", ["Y"]); ("A", ["Z"])])
  = Raises (KeyError "Y").
Proof. split; vm_compute; reflexivity. Qed.

Example test_override_breaks_cycle :
  is_acyclic [("A", ["B"]); ("B", []); ("A", [])] = Returns true.
Proof. vm_compute. reflexivity. Qed.

End scenarios.

(** ** Counting lemmas *)

Section counting.
Implicit Types (v u : nat) (l : list nat) (adj : list (list nat)).

Lemma count_nil v : count v [] = 0.
Proof. reflexivity. Qed.

Lemma count_app v l1 l2 : count v (l1 ++ l2) = count v l1 + count v l2.
Proof. unfold count. by rewrite filter_app, length_app. Qed.

Lemma count_cons_eq v l : count v (v :: l) = S (count v l).
Proof. unfold count. by rewrite filter_cons_True. Qed.

Lemma count_cons_ne v w l : v ≠ w → count v (w :: l) = count v l.
Proof. intros. unfold count. by rewrite filter_cons_False. Qed.

Global Instance count_perm v : Proper ((≡ₚ) ==> (=)) (count v).
Proof. intros l1 l2 Hl. unfold count. by rewrite Hl. Qed.

Lemma count_pos v l : 0 < count v l ↔ v ∈ l.
Proof.
  induction l as [|w l IH]; [rewrite count_nil, elem_of_nil; lia|].
  rewrite elem_of_cons. destruct (decide (v = w)) as [->|Hne].
  - rewrite count_cons_eq. split; [auto | lia].
  - rewrite count_cons_ne by done. rewrite IH. split; [auto | by intros [?|?]].
Qed.

Lemma count_zero v l : count v l = 0 ↔ v ∉ l.
Proof. rewrite <-count_pos. lia. Qed.

Lemma row_lookup adj u r : adj !! u = Some r → row adj u = r.
Proof. unfold row. by intros ->. Qed.

Lemma row_ge adj u : length adj ≤ u → row adj u = [].
Proof. intros. unfold row. by rewrite lookup_ge_None_2. Qed.

Lemma iedge_lt adj u v : iedge adj u v → u < length adj.
Proof.
  unfold iedge. intros Hv. destruct (decide (u < length adj)); [done|].
  rewrite row_ge in Hv by lia. by apply elem_of_nil in Hv.
Qed.

Lemma targets_app adj us1 us2 :
  targets adj (us1 ++ us2) = targets adj us1 ++ targets adj us2.
Proof. unfold targets. apply bind_app. Qed.

Lemma targets_singleton adj u : targets adj [u] = row adj u.
Proof. unfold targets. simpl. apply app_nil_r. Qed.

Lemma elem_of_targets adj us v : v ∈ targets adj us ↔ ∃ u, u ∈ us ∧ iedge adj u v.
Proof.
  unfold targets, iedge. rewrite list_elem_of_bind.
  split; intros (u & ? & ?); eauto.
Qed.

Lemma targets_seq adj : targets adj (seq 0 (length adj)) = concat adj.
Proof.
  induction adj as [|r adj IH] using rev_ind; [done|].
  rewrite length_app, concat_app. simpl.
  rewrite Nat.add_1_r, seq_S, targets_app, targets_singleton. simpl.
  rewrite app_nil_r. f_equal.
  - rewrite <-IH. unfold targets. clear IH.
    assert (Forall (λ u, u < length adj) (seq 0 (length adj))) as Hlt.
    { apply Forall_forall. intros u Hu%elem_of_seq. lia. }
    induction Hlt as [|u us Hu _ IHus]; [done|]. simpl. f_equal; [|done].
    unfold row. by rewrite lookup_app_l.
  - unfold row. by rewrite list_lookup_middle.
Qed.

(** The nodes outside a duplicate-free set of nodes. *)
Lemma nodes_split adj seen :
  NoDup seen → (∀ u, u ∈ seen → u < length adj) →
  ∃ others, seq 0 (length adj) ≡ₚ seen ++ others ∧
    ∀ v, count v (concat adj)
         = count v (targets adj seen) + count v (targets adj others).
Proof.
  intros Hnd Hlt.
  destruct (submseteq_Permutation seen (seq 0 (length adj))) as [others Hp].
  { apply NoDup_submseteq; [done|]. intros u Hu. apply elem_of_seq. split; [lia|].
    simpl. auto. }
  exists others. split; [done|]. intros v.
  rewrite <-targets_seq, <-count_app, <-targets_app. unfold targets. by rewrite Hp.
Qed.

Lemma count_targets_le adj seen v :
  NoDup seen → (∀ u, u ∈ seen → u < length adj) →
  count v (targets adj seen) ≤ count v (concat adj).
Proof. intros Hnd Hlt. destruct (nodes_split adj seen) as (?&_&->); [done..|lia]. Qed.

(** If every edge into [v] is accounted for by [seen], the tails of all
    edges into [v] are in [seen]. *)
Lemma preds_seen adj seen v u :
  NoDup seen → (∀ u, u ∈ seen → u < length adj) →
  count v (concat adj) ≤ count v (targets adj seen) →
  iedge adj u v → u ∈ seen.
Proof.
  intros Hnd Hlt Hc Huv.
  destruct (nodes_split adj seen) as (others & Hp & Hsum); [done..|].
  specialize (Hsum v).
  assert (u ∈ seq 0 (length adj)) as Hu.
  { apply elem_of_seq. split; [lia|]. apply iedge_lt in Huv. simpl. lia. }
  rewrite Hp, elem_of_app in Hu. destruct Hu as [|Hu]; [done|].
  assert (v ∈ targets adj others) as Hv by (apply elem_of_targets; eauto).
  apply count_pos in Hv. lia.
Qed.

(** If some edge into [v] is not accounted for by [seen], it leaves a
    node outside [seen]. *)
Lemma pred_unseen adj seen v :
  NoDup seen → (∀ u, u ∈ seen → u < length adj) →
  count v (targets adj seen) < count v (concat adj) →
  ∃ u, u < length adj ∧ ¬ u ∈ seen ∧ iedge adj u v.
Proof.
  intros Hnd Hlt Hc.
  destruct (nodes_split adj seen) as (others & Hp & Hsum); [done..|].
  specialize (Hsum v).
  assert (v ∈ targets adj others) as (u & Hu & Huv)%elem_of_targets.
  { apply count_pos. lia. }
  exists u. split_and!; [by eapply iedge_lt| |done].
  assert (NoDup (seen ++ others)) as Hnd' by (rewrite <-Hp; apply NoDup_seq).
  apply NoDup_app in Hnd' as (_ & Hdisj & _). intros ?. by eapply Hdisj.
Qed.
End counting.

(** ** The work-queue loop *)

Section kahn.
Context (adj : list (list nat)).
Implicit Types (seen pending queue : list nat) (in_degree : list Z).

Lemma tc_last {A} (R : relation A) x y : tc R x y → ∃ z, rtc R x z ∧ R z y.
Proof.
  revert y. apply (tc_ind_r (λ y, ∃ z, rtc R x z ∧ R z y) x).
  - intros y Hxy. exists x. split; [apply rtc_refl | done].
  - intros y z Hxy Hyz _. exists y. split; [by apply tc_rtc | done].
Qed.

Lemma inv_seen_nodup seen pending in_degree queue :
  kahn_inv adj seen pending in_degree queue →
  NoDup seen ∧ ∀ u, u ∈ seen → u < length adj.
Proof.
  intros [Hnd Hr _ _ _ _ _]. apply NoDup_app in Hnd as (? & _ & _).
  split; [done|]. intros u Hu. apply Hr, elem_of_app. by left.
Qed.

(** A node whose last incoming edge has just been removed is on no cycle. *)
Lemma fresh_acyclic seen w :
  NoDup seen → (∀ u, u ∈ seen → u < length adj) →
  (∀ u, u ∈ seen → ¬ tc (iedge adj) u u) →
  count w (concat adj) ≤ count w (targets adj seen) →
  ¬ tc (iedge adj) w w.
Proof.
  intros Hnd Hlt Hac Hc (u & Hwu & Huw)%tc_last.
  apply (Hac u); [by eapply preds_seen|].
  eapply tc_rtc_r; [by apply tc_once | done].
Qed.

(** Lines 37-39 keep the invariant. *)
Lemma relax_inv seen w pending in_degree queue :
  kahn_inv adj seen (w :: pending) in_degree queue →
  ∃ in_degree' queue',
    relax (in_degree, queue) w = Returns (in_degree', queue') ∧
    kahn_inv adj seen pending in_degree' queue'.
Proof.
  intros Hinv. destruct (inv_seen_nodup _ _ _ _ Hinv) as [Hnds Hlts].
  destruct Hinv as [Hnd Hr Hp Hlen Hdeg Hzero Hac].
  assert (w < length adj) as Hw by (apply Hp; left).
  pose proof (Hdeg w Hw) as Hdw. rewrite count_cons_eq in Hdw.
  pose proof (count_targets_le adj seen w Hnds Hlts) as Hle.
  set (x := (Z.of_nat (count w (concat adj)) - Z.of_nat (count w (targets adj seen))
             + Z.of_nat (S (count w pending)))%Z) in *.
  assert (1 ≤ x)%Z as Hx by (unfold x; lia).
  assert (¬ w ∈ seen ++ queue) as Hwnew.
  { rewrite (Hzero w Hw), Hdw. intros [=]. lia. }
  assert (∀ v, v ∈ pending → v < length adj) as Hp'.
  { intros v Hv. apply Hp. by right. }
  assert (∀ v, v < length adj →
    <[w:=(x - 1)%Z]> in_degree !! v =
      Some (Z.of_nat (count v (concat adj)) - Z.of_nat (count v (targets adj seen))
            + Z.of_nat (count v pending))%Z) as Hdeg'.
  { intros v Hv. destruct (decide (v = w)) as [->|Hne].
    - rewrite list_lookup_insert_eq by lia. f_equal. unfold x. lia.
    - rewrite list_lookup_insert_ne by done. rewrite (Hdeg v Hv).
      by rewrite count_cons_ne. }
  unfold relax, list_item. rewrite Hdw. simpl.
  rewrite list_lookup_insert_eq by lia. simpl.
  destruct (decide ((x - 1)%Z = 0%Z)) as [Hz|Hnz]; do 2 eexists; (split; [done|]).
  - split; [| |done|by rewrite length_insert|done| |].
    + rewrite app_assoc. apply NoDup_app. split_and!; [done| |apply NoDup_singleton].
      intros v Hv ->%list_elem_of_singleton. done.
    + intros v. rewrite app_assoc, elem_of_app, list_elem_of_singleton.
      intros [?| ->]; auto.
    + intros v Hv. rewrite app_assoc, elem_of_app, list_elem_of_singleton.
      destruct (decide (v = w)) as [->|Hne].
      * rewrite list_lookup_insert_eq by lia. rewrite Hz. split; auto.
      * rewrite list_lookup_insert_ne by done. rewrite <-(Hzero v Hv).
        split; [by intros [?|?] | auto].
    + intros v. rewrite app_assoc, elem_of_app, list_elem_of_singleton.
      intros [?| ->]; [auto|].
      apply (fresh_acyclic seen); [done..| |unfold x in Hz; lia].
      intros u Hu. apply Hac, elem_of_app. by left.
  - split; [done..|by rewrite length_insert|done| |done].
    intros v Hv. destruct (decide (v = w)) as [->|Hne].
    + rewrite list_lookup_insert_eq by lia. split; [done|]. intros [=]. done.
    + rewrite list_lookup_insert_ne by done. by apply Hzero.
Qed.

(** The inner [for] loop over the neighbours of a dequeued node. *)
Lemma relax_all_inv pending : ∀ seen in_degree queue,
  kahn_inv adj seen pending in_degree queue →
  ∃ in_degree' queue',
    for_each relax pending (in_degree, queue) = Returns (in_degree', queue') ∧
    kahn_inv adj seen [] in_degree' queue'.
Proof.
  induction pending as [|w pending IH]; intros seen in_degree queue Hinv.
  - by exists in_degree, queue.
  - destruct (relax_inv _ _ _ _ _ Hinv) as (d1 & q1 & Hr & Hinv1).
    destruct (IH _ _ _ Hinv1) as (d2 & q2 & Hf & Hinv2).
    exists d2, q2. split; [|done]. cbn [for_each]. rewrite Hr. done.
Qed.

(** Dequeuing [node]: its row becomes the pending list. *)
Lemma dequeue_inv seen in_degree node queue :
  adj_closed adj →
  kahn_inv adj seen [] in_degree (node :: queue) →
  kahn_inv adj (seen ++ [node]) (row adj node) in_degree queue.
Proof.
  intros Hcl [Hnd Hr Hp Hlen Hdeg Hzero Hac].
  split; rewrite <-?app_assoc; simpl.
  - done.
  - done.
  - intros v Hv. by eapply Hcl.
  - done.
  - intros v Hv. rewrite (Hdeg v Hv), targets_app, targets_singleton, count_app.
    rewrite count_nil. f_equal. lia.
  - done.
  - done.
Qed.

Lemma inv_final seen in_degree :
  kahn_inv adj seen [] in_degree [] → kahn_final adj seen.
Proof.
  intros Hinv. destruct (inv_seen_nodup _ _ _ _ Hinv) as [Hnds Hlts].
  destruct Hinv as [Hnd Hr Hp Hlen Hdeg Hzero Hac].
  rewrite app_nil_r in *. split_and!; [done..|].
  intros v Hv Hnv. apply pred_unseen; [done..|].
  pose proof (count_targets_le adj seen v Hnds Hlts) as Hle.
  destruct (decide (count v (targets adj seen) = count v (concat adj))) as [Heq|]; [|lia].
  exfalso. apply Hnv, (proj2 (Hzero v Hv)). rewrite (Hdeg v Hv), count_nil, Heq.
  f_equal. lia.
Qed.

Lemma nodup_bounded (l : list nat) n : NoDup l → (∀ u, u ∈ l → u < n) → length l ≤ n.
Proof.
  intros Hnd Hlt. rewrite <-(length_seq n 0). apply submseteq_length.
  apply NoDup_submseteq; [done|]. intros u Hu. apply elem_of_seq.
  specialize (Hlt u Hu). lia.
Qed.

(** Lines 32-39: with one unit of fuel per node that is still to be
    dequeued, the loop returns the number of nodes it has dequeued. *)
Lemma kahn_loop_spec fuel : ∀ seen in_degree queue,
  adj_closed adj →
  kahn_inv adj seen [] in_degree queue →
  length adj ≤ length seen + fuel →
  ∃ seen', kahn_loop fuel adj in_degree queue (length seen) = Returns (length seen') ∧
    kahn_final adj seen'.
Proof.
  induction fuel as [|fuel IH]; intros seen in_degree queue Hcl Hinv Hfuel.
  - destruct queue as [|node queue].
    + exists seen. split; [done|]. by eapply inv_final.
    + exfalso. destruct Hinv as [Hnd Hr _ _ _ _ _].
      pose proof (nodup_bounded _ _ Hnd Hr) as Hb.
      rewrite length_app in Hb. simpl in Hb. lia.
  - destruct queue as [|node queue].
    + exists seen. split; [done|]. by eapply inv_final.
    + pose proof (dequeue_inv _ _ _ _ Hcl Hinv) as Hinv1.
      destruct (relax_all_inv _ _ _ _ Hinv1) as (d2 & q2 & Hf & Hinv2).
      destruct (IH _ _ _ Hcl Hinv2) as (seen' & Hloop & Hfin).
      { rewrite length_app. simpl. lia. }
      exists seen'. split; [|done]. cbn [kahn_loop]. unfold list_item.
      assert (node < length adj) as Hn.
      { destruct Hinv as [_ Hr _ _ _ _ _]. apply Hr, elem_of_app. right. left. }
      destruct (lookup_lt_is_Some_2 adj node Hn) as [r Hrow].
      rewrite Hrow. cbn [bind]. rewrite (row_lookup _ _ _ Hrow) in Hf.
      rewrite Hf. cbn [bind fst snd].
      rewrite length_app in Hloop. simpl in Hloop. done.
Qed.
End kahn.

(** ** Visited count and cycles of the index graph *)

Section cycles.
Context (adj : list (list nat)).

Lemma walk_reach a l b : walk adj (a :: l) → b ∈ l → tc (iedge adj) a b.
Proof.
  revert a. induction l as [|c l IH]; intros a [Hac Hw] Hb.
  - by apply elem_of_nil in Hb.
  - apply elem_of_cons in Hb as [->|Hb]; [by apply tc_once|].
    eapply tc_l; [done|]. by apply IH.
Qed.

Lemma walk_repeats l :
  walk adj l → NoDup l ∨ ∃ x, tc (iedge adj) x x.
Proof.
  induction l as [|a l IH]; intros Hw; [left; constructor|].
  destruct (IH (proj2 Hw)) as [Hnd|?]; [|by right].
  destruct (decide (a ∈ l)) as [Hin|Hnin].
  - right. exists a. by apply walk_reach with l.
  - left. by constructor.
Qed.

(** If every node of a non-empty set has a predecessor in the set, the
    graph has a cycle. *)
Lemma backward_walk (unseen : nat → Prop) v k :
  unseen v →
  (∀ v, unseen v → ∃ u, unseen u ∧ iedge adj u v) →
  ∃ l, length l = S k ∧ walk adj l ∧ ∀ u, u ∈ l → unseen u.
Proof.
  intros Hv Hpred. induction k as [|k (l & Hlen & Hw & Hl)].
  - exists [v]. split_and!; [done..|]. by intros u ->%list_elem_of_singleton.
  - destruct l as [|a l]; [done|].
    destruct (Hpred a) as (u & Hu & Hua); [apply Hl; left|].
    exists (u :: a :: l). split_and!; [simpl in *; lia|by split|].
    intros u' [->|?]%elem_of_cons; auto.
Qed.

Lemma cycle_of_unseen (unseen : nat → Prop) v :
  unseen v → (∀ v, unseen v → v < length adj) →
  (∀ v, unseen v → ∃ u, unseen u ∧ iedge adj u v) →
  ∃ x, tc (iedge adj) x x.
Proof.
  intros Hv Hlt Hpred.
  destruct (backward_walk unseen v (length adj) Hv Hpred) as (l & Hlen & Hw & Hl).
  destruct (walk_repeats l Hw) as [Hnd|?]; [|done].
  assert (length l ≤ length adj); [|lia].
  apply nodup_bounded; [done|]. intros u Hu. auto.
Qed.

Lemma tc_iedge_lt x y : tc (iedge adj) x y → x < length adj.
Proof. intros H. destruct H as [? ? H|? ? ? H _]; exact (iedge_lt _ _ _ H). Qed.

Lemma full_seen seen v :
  NoDup seen → (∀ u, u ∈ seen → u < length adj) →
  length seen = length adj → v < length adj → v ∈ seen.
Proof.
  intros Hnd Hlt Hlen Hv.
  assert (seen ≡ₚ seq 0 (length adj)) as ->.
  { apply submseteq_length_Permutation; [|by rewrite length_seq; lia].
    apply NoDup_submseteq; [done|]. intros u Hu. apply elem_of_seq.
    specialize (Hlt u Hu). lia. }
  apply elem_of_seq. lia.
Qed.

Lemma some_unseen seen :
  NoDup seen → (∀ u, u ∈ seen → u < length adj) →
  length seen ≠ length adj → ∃ v, v < length adj ∧ ¬ v ∈ seen.
Proof.
  intros Hnd Hlt Hlen.
  destruct (decide (Forall (λ v, v ∈ seen) (seq 0 (length adj)))) as [Hall|Hex].
  - exfalso. pose proof (nodup_bounded _ _ Hnd Hlt).
    assert (length (seq 0 (length adj)) ≤ length seen); [|rewrite length_seq in *; lia].
    apply submseteq_length, NoDup_submseteq; [apply NoDup_seq|].
    by apply Forall_forall.
  - apply not_Forall_Exists in Hex; [|apply _].
    apply Exists_exists in Hex as (v & Hv%elem_of_seq & Hnv).
    exists v. split; [lia|done].
Qed.

(** The verdict of line 41 on the index graph. *)
Theorem kahn_final_acyclic seen :
  kahn_final adj seen →
  verdict (bool_decide (length seen = length adj)) (∃ x, tc (iedge adj) x x).
Proof.
  intros (Hnd & Hlt & Hac & Hpred). unfold verdict. case_bool_decide as Hlen.
  - intros [x Hx]. apply (Hac x); [|done].
    apply full_seen; [done..|by eapply tc_iedge_lt].
  - destruct (some_unseen seen Hnd Hlt Hlen) as (v & Hv & Hnv).
    apply (cycle_of_unseen (λ v, v < length adj ∧ ¬ v ∈ seen) v).
    + done.
    + by intros ? [? _].
    + intros w [Hw Hnw]. destruct (Hpred w Hw Hnw) as (u & ? & ? & ?). eauto.
Qed.
End cycles.

(** ** Seeding the queue and running the loop *)

Section seeding.
Context (adj : list (list nat)).

Lemma init_queue_for in_degree (l : list nat) : ∀ queue,
  degrees_of adj in_degree → (∀ v, v ∈ l → v < length adj) →
  for_each (λ queue idx,
      do d <- list_item in_degree idx;
      if decide (d = 0%Z) then Returns (queue ++ [idx]) else Returns queue) l queue
  = Returns (queue ++ filter (λ v, count v (concat adj) = 0) l).
Proof.
  intros queue [Hlen Hdeg]. revert queue.
  induction l as [|v l IH]; intros queue Hl; [by rewrite app_nil_r|].
  cbn [for_each]. unfold list_item at 1. rewrite Hdeg by (apply Hl; left).
  cbn [bind]. assert (∀ v, v ∈ l → v < length adj) as Hl'.
  { intros ??. apply Hl. by right. }
  destruct (decide (Z.of_nat (count v (concat adj)) = 0%Z)) as [Hz|Hnz]; cbn [bind].
  - rewrite IH by done. rewrite filter_cons_True by lia. by rewrite <-app_assoc.
  - rewrite IH by done. rewrite filter_cons_False by lia. done.
Qed.

Lemma init_queue_spec in_degree :
  degrees_of adj in_degree →
  ∃ queue, init_queue (length adj) in_degree = Returns queue ∧
    kahn_inv adj [] [] in_degree queue.
Proof.
  intros Hd. eexists. split.
  { unfold init_queue. rewrite init_queue_for; [done..|].
    intros v Hv%elem_of_seq. lia. }
  destruct Hd as [Hlen Hdeg]. simpl.
  assert (∀ v, v ∈ filter (λ v, count v (concat adj) = 0) (seq 0 (length adj)) ↔
               count v (concat adj) = 0 ∧ v < length adj) as Hq.
  { intros v. rewrite list_elem_of_filter, elem_of_seq. split; intros [? ?]; split; lia. }
  split; simpl.
  - apply NoDup_filter, NoDup_seq.
  - intros v Hv. by apply Hq.
  - intros v Hv. by apply elem_of_nil in Hv.
  - done.
  - intros v Hv. rewrite Hdeg by done. f_equal. unfold targets. simpl.
    rewrite count_nil. lia.
  - intros v Hv. rewrite Hq, Hdeg by done. split.
    + intros [-> _]. done.
    + intros [=]. split; [lia|done].
  - intros v [Hv _]%Hq. apply (fresh_acyclic adj []).
    + constructor.
    + intros u Hu. by apply elem_of_nil in Hu.
    + intros u Hu. by apply elem_of_nil in Hu.
    + lia.
Qed.

(** Lines 27-41 on a well-formed graph: the loop returns, having dequeued
    at most [n] nodes, and exactly [n] iff the graph has no cycle. *)
Theorem kahn_run fuel in_degree :
  adj_closed adj → degrees_of adj in_degree → length adj ≤ fuel →
  ∃ queue visited_count,
    init_queue (length adj) in_degree = Returns queue ∧
    kahn_loop fuel adj in_degree queue 0 = Returns visited_count ∧
    visited_count ≤ length adj ∧
    verdict (bool_decide (visited_count = length adj)) (∃ x, tc (iedge adj) x x).
Proof.
  intros Hcl Hd Hfuel.
  destruct (init_queue_spec in_degree Hd) as (queue & Hq & Hinv).
  destruct (kahn_loop_spec adj fuel [] in_degree queue Hcl Hinv) as (seen & Hl & Hfin).
  { simpl. lia. }
  exists queue, (length seen). split_and!; [done..| |].
  - destruct Hfin as (? & ? & _). by apply nodup_bounded.
  - by apply kahn_final_acyclic.
Qed.
End seeding.

(** ** Dictionaries *)

Section dicts.
Context {V : Type}.
Implicit Types (d : dict V) (k : string) (v : V).

Lemma dict_get_set d k v k' :
  dict_get (dict_set d k v) k' = if decide (k = k') then Some v else dict_get d k'.
Proof.
  induction d as [|[k0 v0] d IH]; simpl.
  - repeat case_decide; done.
  - repeat (case_decide; simpl; simplify_eq); done.
Qed.

Lemma dict_get_None d k : dict_get d k = None ↔ ¬ k ∈ dict_keys d.
Proof.
  unfold dict_keys. induction d as [|[k0 v0] d IH]; simpl.
  - rewrite elem_of_nil. tauto.
  - rewrite elem_of_cons. case_decide; simplify_eq.
    + split; [done|]. intros []. by left.
    + rewrite IH. split.
      * intros Hn Hk. destruct Hk as [Hk|Hk]; [by subst|done].
      * intros Hn ?. apply Hn. by right.
Qed.

Lemma dict_get_is_Some d k : is_Some (dict_get d k) ↔ k ∈ dict_keys d.
Proof.
  rewrite <-not_eq_None_Some, dict_get_None.
  destruct (decide (k ∈ dict_keys d)); tauto.
Qed.

Lemma dict_set_new d k v : ¬ k ∈ dict_keys d → dict_set d k v = d ++ [(k, v)].
Proof.
  unfold dict_keys. induction d as [|[k0 v0] d IH]; simpl; [done|].
  rewrite elem_of_cons. intros Hn. case_decide; simplify_eq.
  - destruct Hn. by left.
  - rewrite IH; [done|]. intros ?. apply Hn. by right.
Qed.

Lemma dict_keys_set d k v :
  dict_keys (dict_set d k v)
  = if decide (k ∈ dict_keys d) then dict_keys d else dict_keys d ++ [k].
Proof.
  unfold dict_keys. induction d as [|[k0 v0] d IH]; csimpl.
  - destruct (decide (k ∈ [])) as [H|H]; [by apply elem_of_nil in H|done].
  - destruct (decide (k0 = k)) as [->|Hne]; csimpl.
    + rewrite decide_True by left. done.
    + rewrite IH. destruct (decide (k ∈ d.*1)) as [Hin|Hnin].
      * rewrite decide_True by (by right). done.
      * rewrite decide_False; [done|]. intros [?|?]%elem_of_cons; done.
Qed.

Lemma dict_keys_set_nodup d k v :
  NoDup (dict_keys d) → NoDup (dict_keys (dict_set d k v)).
Proof.
  intros Hnd. rewrite dict_keys_set. case_decide; [done|].
  apply NoDup_app. split_and!; [done| |apply NoDup_singleton].
  by intros ? ? ->%list_elem_of_singleton.
Qed.

Lemma elem_of_dict_keys_set d k v k' :
  k' ∈ dict_keys (dict_set d k v) ↔ k' = k ∨ k' ∈ dict_keys d.
Proof.
  rewrite dict_keys_set. case_decide.
  - split; [auto|]. by intros [->|?].
  - rewrite elem_of_app, list_elem_of_singleton. tauto.
Qed.

(** With distinct keys, the dictionary is read by position. *)
Lemma dict_get_lookup d k v :
  NoDup (dict_keys d) → dict_get d k = Some v ↔ ∃ i, d !! i = Some (k, v).
Proof.
  unfold dict_keys. induction d as [|[k0 v0] d IH]; simpl; intros Hnd.
  - split; [done|]. by intros [? ?].
  - apply NoDup_cons in Hnd as [Hk0 Hnd]. case_decide; simplify_eq.
    + split.
      * intros [= ->]. by exists 0.
      * intros [[|i] Hi]; simpl in Hi; [by simplify_eq|].
        destruct Hk0. apply list_elem_of_fmap. exists (k, v).
        split; [done|]. by eapply list_elem_of_lookup_2.
    + rewrite IH by done. split.
      * intros [i Hi]. by exists (S i).
      * intros [[|i] Hi]; simpl in Hi; [by simplify_eq|]. by exists i.
Qed.
End dicts.

Section maps_of_the_function.
Implicit Types (commit_list : list commit) (keys : list string).

Lemma build_parent_map_snoc commit_list c ps :
  build_parent_map (commit_list ++ [(c, ps)])
  = dict_set (build_parent_map commit_list) c ps.
Proof. unfold build_parent_map. by rewrite foldl_snoc. Qed.

Lemma build_parent_map_nodup commit_list :
  NoDup (dict_keys (build_parent_map commit_list)).
Proof.
  induction commit_list as [|[c ps] cl IH] using rev_ind; [constructor|].
  rewrite build_parent_map_snoc. by apply dict_keys_set_nodup.
Qed.

Lemma build_parent_map_keys commit_list x :
  x ∈ dict_keys (build_parent_map commit_list) ↔ x ∈ commit_list.*1.
Proof.
  induction commit_list as [|[c ps] cl IH] using rev_ind; [done|].
  rewrite build_parent_map_snoc, elem_of_dict_keys_set, IH, fmap_app, elem_of_app.
  simpl. rewrite list_elem_of_singleton. tauto.
Qed.

Lemma build_parent_map_length commit_list :
  length (build_parent_map commit_list) ≤ length commit_list.
Proof.
  induction commit_list as [|[c ps] cl IH] using rev_ind; [done|].
  rewrite build_parent_map_snoc, length_app. simpl.
  assert (length (dict_set (build_parent_map cl) c ps)
          = length (dict_keys (dict_set (build_parent_map cl) c ps))) as ->.
  { unfold dict_keys. by rewrite length_fmap. }
  rewrite dict_keys_set. case_decide; unfold dict_keys;
    rewrite ?length_app, length_fmap; simpl; lia.
Qed.

Lemma build_id_to_index_zip keys :
  NoDup keys → build_id_to_index keys = zip keys (seq 0 (length keys)).
Proof.
  intros Hnd. unfold build_id_to_index.
  induction keys as [|k keys IH] using rev_ind; [done|].
  apply NoDup_app in Hnd as (Hnd & Hk & _).
  rewrite length_app. simpl. rewrite Nat.add_1_r, seq_S. simpl.
  rewrite !zip_with_app by (by rewrite length_seq).
  simpl. rewrite foldl_snoc, IH by done. apply dict_set_new.
  unfold dict_keys. rewrite fst_zip by (rewrite length_seq; lia).
  intros Hin. by apply (Hk k), list_elem_of_singleton.
Qed.

Lemma id_to_index_get keys x i :
  NoDup keys → dict_get (build_id_to_index keys) x = Some i ↔ keys !! i = Some x.
Proof.
  intros Hnd. rewrite build_id_to_index_zip by done.
  rewrite dict_get_lookup by (unfold dict_keys; rewrite fst_zip;
                               [done|rewrite length_seq; lia]).
  split.
  - intros [j Hj]. apply lookup_zip_with_Some in Hj as (y & z & [= <- <-] & Hy & Hz).
    apply lookup_seq in Hz as [-> _]. done.
  - intros Hi. exists i. apply lookup_zip_with_Some. exists x, i. split_and!; [done..|].
    apply lookup_seq. split; [done|]. by eapply lookup_lt_Some.
Qed.

Lemma id_to_index_keys keys :
  NoDup keys → dict_keys (build_id_to_index keys) = keys.
Proof.
  intros Hnd. rewrite build_id_to_index_zip by done.
  unfold dict_keys. rewrite fst_zip; [done|]. rewrite length_seq. lia.
Qed.

Lemma id_to_index_length keys :
  NoDup keys → length (build_id_to_index keys) = length keys.
Proof.
  intros Hnd. rewrite build_id_to_index_zip by done.
  rewrite length_zip_with_l_eq; [done|]. by rewrite length_seq.
Qed.
End maps_of_the_function.

(** ** Building the index graph (lines 12-25) *)

Section build.
Context (parent_map : dict (list string)) (Hnd : NoDup (dict_keys parent_map)).
Let id_to_index := build_id_to_index (dict_keys parent_map).
Let n := length parent_map.

Lemma index_range p v : dict_get id_to_index p = Some v → v < n.
Proof.
  intros Hp%id_to_index_get; [|done]. apply lookup_lt_Some in Hp.
  unfold dict_keys in Hp. by rewrite length_fmap in Hp.
Qed.

Lemma index_of_key u cid ps :
  parent_map !! u = Some (cid, ps) → dict_get id_to_index cid = Some u.
Proof.
  intros Hu. apply id_to_index_get; [done|]. unfold dict_keys.
  by rewrite list_lookup_fmap, Hu.
Qed.

Lemma key_of_index p v :
  dict_get id_to_index p = Some v → ∃ ps, parent_map !! v = Some (p, ps).
Proof.
  intros Hp%id_to_index_get; [|done]. unfold dict_keys in Hp.
  apply list_lookup_fmap_Some in Hp as ([p' ps] & -> & Hv). by exists ps.
Qed.

Lemma count_snoc_row A (r : list nat) B v v' :
  count v' (concat (A ++ (r ++ [v]) :: B))
  = count v' (concat (A ++ r :: B)) + (if decide (v' = v) then 1 else 0).
Proof.
  rewrite !concat_app. simpl. rewrite !count_app. case_decide as Hv.
  - subst. rewrite count_cons_eq, count_nil. lia.
  - rewrite count_cons_ne, count_nil by done. lia.
Qed.

Lemma add_edge_spec A r B in_degree v :
  degrees_of (A ++ r :: B) in_degree → v < length (A ++ r :: B) →
  ∃ in_degree',
    add_edge (length A) v (A ++ r :: B, in_degree)
    = Returns (A ++ (r ++ [v]) :: B, in_degree') ∧
    degrees_of (A ++ (r ++ [v]) :: B) in_degree'.
Proof.
  intros [Hlen Hdeg] Hv. unfold add_edge, list_item.
  rewrite list_lookup_middle by done. cbn [bind].
  rewrite (Hdeg v Hv). cbn [bind]. eexists. split.
  { rewrite insert_app_r_alt by lia. rewrite Nat.sub_diag. reflexivity. }
  assert (length (A ++ (r ++ [v]) :: B) = length (A ++ r :: B)) as Hl.
  { by rewrite !length_app. }
  split; [by rewrite length_insert, Hl|].
  intros v' Hv'. rewrite Hl in Hv'. rewrite count_snoc_row. case_decide as Hvv.
  - subst. rewrite list_lookup_insert_eq by lia. f_equal. lia.
  - rewrite list_lookup_insert_ne by done. rewrite Hdeg by lia. f_equal. lia.
Qed.

(** Lines 22-25 for one declaration: either every parent has an index and
    the row is completed, or the first parent without one raises. *)
Lemma add_parents_spec A B ps : ∀ r in_degree,
  degrees_of (A ++ r :: B) in_degree → length (A ++ r :: B) = n →
  (Forall (λ p, p ∈ dict_keys parent_map) ps ∧
   ∃ in_degree',
     add_parents id_to_index (length A) ps (A ++ r :: B, in_degree)
     = Returns (A ++ (r ++ (index_of id_to_index <$> ps)) :: B, in_degree') ∧
     degrees_of (A ++ (r ++ (index_of id_to_index <$> ps)) :: B) in_degree') ∨
  (∃ k, k ∈ ps ∧ ¬ k ∈ dict_keys parent_map ∧
     add_parents id_to_index (length A) ps (A ++ r :: B, in_degree)
     = Raises (KeyError k)).
Proof.
  unfold add_parents.
  induction ps as [|p ps IH]; intros r in_degree Hd Hn; cbn [for_each].
  - left. split; [constructor|]. exists in_degree. by rewrite app_nil_r.
  - unfold dict_item at 1 3. destruct (dict_get id_to_index p) as [v|] eqn:Hp; cbn [bind].
    + destruct (add_edge_spec A r B in_degree v Hd) as (deg1 & -> & Hd1).
      { rewrite Hn. by eapply index_range. }
      cbn [bind]. destruct (IH (r ++ [v]) deg1 Hd1) as [[Hall Hok]|(k & Hk & Hnk & Hr)].
      { rewrite <-Hn, !length_app. simpl. done. }
      * left. split.
        { constructor; [|done]. destruct (key_of_index p v Hp) as [ps' Hv].
          unfold dict_keys. apply list_elem_of_fmap. exists (p, ps').
          split; [done|]. by eapply list_elem_of_lookup_2. }
        csimpl. unfold index_of at 1 3. rewrite Hp. simpl.
        rewrite <-app_assoc in Hok. done.
      * right. exists k. split_and!; [by right|done..].
    + right. exists p. split_and!; [by left| |done].
      apply dict_get_None in Hp. unfold id_to_index in Hp.
      by rewrite id_to_index_keys in Hp.
Qed.

Lemma concat_replicate_nil k : concat (replicate k (@nil nat)) = [].
Proof. induction k; [done|]. simpl. done. Qed.

Lemma degrees_initial k : degrees_of (replicate k []) (replicate k 0%Z).
Proof.
  split; [by rewrite !length_replicate|]. rewrite length_replicate.
  intros v Hv. rewrite lookup_replicate_2 by done. by rewrite concat_replicate_nil.
Qed.

(** Lines 20-25 from any point of the iteration over [parent_map]. *)
Lemma build_graph_from post : ∀ pre in_degree,
  parent_map = pre ++ post →
  degrees_of (adj_of id_to_index pre ++ replicate (length post) []) in_degree →
  (Forall (λ e : string * list string,
             Forall (λ p, p ∈ dict_keys parent_map) e.2) post ∧
   ∃ in_degree',
     build_graph id_to_index post
       (adj_of id_to_index pre ++ replicate (length post) [], in_degree)
     = Returns (adj_of id_to_index parent_map, in_degree') ∧
     degrees_of (adj_of id_to_index parent_map) in_degree') ∨
  (∃ k e, e ∈ post ∧ k ∈ e.2 ∧ ¬ k ∈ dict_keys parent_map ∧
     build_graph id_to_index post
       (adj_of id_to_index pre ++ replicate (length post) [], in_degree)
     = Raises (KeyError k)).
Proof.
  unfold build_graph.
  induction post as [|[cid ps] post IH]; intros pre in_degree Hpm Hd; cbn [for_each].
  - left. split; [constructor|]. exists in_degree.
    rewrite Hpm, !app_nil_r in *. done.
  - assert (dict_get id_to_index cid = Some (length pre)) as Hcid.
    { apply (index_of_key _ _ ps). rewrite Hpm. by apply list_lookup_middle. }
    unfold dict_item at 1 3. rewrite Hcid. cbn [bind length replicate] in *.
    assert (length (adj_of id_to_index pre) = length pre) as Hlen.
    { unfold adj_of. by rewrite length_fmap. }
    rewrite <-Hlen.
    destruct (add_parents_spec (adj_of id_to_index pre) (replicate (length post) [])
                ps [] in_degree Hd) as [(Hall & deg1 & -> & Hd1)|(k & Hk & Hnk & ->)].
    { rewrite length_app, Hlen. simpl. rewrite length_replicate.
      unfold n. rewrite Hpm, length_app. simpl. done. }
    + cbn [bind]. specialize (IH (pre ++ [(cid, ps)]) deg1).
      assert (adj_of id_to_index (pre ++ [(cid, ps)]) ++ replicate (length post) []
              = adj_of id_to_index pre
                ++ ([] ++ (index_of id_to_index <$> ps)) :: replicate (length post) [])
        as Heq.
      { unfold adj_of. rewrite fmap_app, <-app_assoc. done. }
      rewrite Heq in IH.
      destruct IH as [(Hall' & deg2 & Hr & Hd2)|(k & e & He & Hk & Hnk & Hr)].
      * by rewrite <-app_assoc.
      * done.
      * left. split; [by constructor|]. exists deg2. done.
      * right. exists k, e. split_and!; [by right|done..].
    + right. exists k, (cid, ps). split_and!; [by left|done..].
Qed.

(** Lines 16-25. *)
Lemma build_graph_spec :
  (Forall (λ e : string * list string,
             Forall (λ p, p ∈ dict_keys parent_map) e.2) parent_map ∧
   ∃ in_degree,
     build_graph id_to_index parent_map (replicate n [], replicate n 0%Z)
     = Returns (adj_of id_to_index parent_map, in_degree) ∧
     degrees_of (adj_of id_to_index parent_map) in_degree) ∨
  (∃ k e, e ∈ parent_map ∧ k ∈ e.2 ∧ ¬ k ∈ dict_keys parent_map ∧
     build_graph id_to_index parent_map (replicate n [], replicate n 0%Z)
     = Raises (KeyError k)).
Proof.
  apply (build_graph_from parent_map [] (replicate n 0%Z)); [done|].
  apply degrees_initial.
Qed.
End build.

(** ** The graph of a parent map and its index graph *)

Section correspondence.
Context (parent_map : dict (list string)) (Hnd : NoDup (dict_keys parent_map)).
Context (Hclosed : pm_closed parent_map).
Let id_to_index := build_id_to_index (dict_keys parent_map).
Let adj := adj_of id_to_index parent_map.

Lemma adj_of_length : length adj = length parent_map.
Proof. unfold adj, adj_of. by rewrite length_fmap. Qed.

Lemma iedge_inv u v :
  iedge adj u v →
  ∃ x ps y, parent_map !! u = Some (x, ps) ∧ y ∈ ps ∧ v = index_of id_to_index y.
Proof.
  unfold iedge, row, adj, adj_of. rewrite list_lookup_fmap.
  destruct (parent_map !! u) as [[x ps]|] eqn:Hu; simpl.
  - intros (y & -> & Hy)%list_elem_of_fmap. by exists x, ps, y.
  - by intros ?%elem_of_nil.
Qed.

Lemma iedge_intro u x ps y :
  parent_map !! u = Some (x, ps) → y ∈ ps → iedge adj u (index_of id_to_index y).
Proof.
  intros Hu Hy. unfold iedge, row, adj, adj_of. rewrite list_lookup_fmap, Hu. simpl.
  by apply list_elem_of_fmap_2.
Qed.

Lemma key_index y :
  y ∈ dict_keys parent_map →
  ∃ v ps, dict_get id_to_index y = Some v ∧ parent_map !! v = Some (y, ps).
Proof.
  intros Hy. destruct (proj2 (dict_get_is_Some id_to_index y)) as [v Hv].
  { unfold id_to_index. by rewrite id_to_index_keys. }
  destruct (key_of_index parent_map Hnd y v Hv) as [ps Hps]. by exists v, ps.
Qed.

Lemma parent_is_key u x ps y :
  parent_map !! u = Some (x, ps) → y ∈ ps → y ∈ dict_keys parent_map.
Proof.
  intros Hu Hy. unfold pm_closed in Hclosed. rewrite Forall_forall in Hclosed.
  specialize (Hclosed (x, ps) (list_elem_of_lookup_2 _ _ _ Hu)).
  rewrite Forall_forall in Hclosed. by apply Hclosed.
Qed.

Lemma adj_of_closed : adj_closed adj.
Proof.
  intros u v (x & ps & y & Hu & Hy & ->)%iedge_inv.
  destruct (key_index y) as (v & ps' & Hv & _); [by eapply parent_is_key|].
  unfold index_of. rewrite Hv. simpl. rewrite adj_of_length.
  by eapply index_range.
Qed.

Lemma iedge_pm_edge u v :
  iedge adj u v → pm_edge parent_map (key_of parent_map u) (key_of parent_map v).
Proof.
  intros (x & ps & y & Hu & Hy & ->)%iedge_inv.
  destruct (key_index y) as (v & ps' & Hv & Hv'); [by eapply parent_is_key|].
  unfold index_of, key_of, dict_keys. rewrite Hv. simpl.
  rewrite !list_lookup_fmap, Hu, Hv'. simpl.
  exists ps. split; [|done]. apply dict_get_lookup; [done|]. by exists u.
Qed.

Lemma pm_edge_iedge x y :
  pm_edge parent_map x y →
  iedge adj (index_of id_to_index x) (index_of id_to_index y).
Proof.
  intros (ps & Hx & Hy). apply dict_get_lookup in Hx as [u Hu]; [|done].
  pose proof (index_of_key parent_map Hnd u x ps Hu) as Hi.
  change (dict_get id_to_index x = Some u) in Hi.
  unfold index_of at 1. rewrite Hi. simpl. by eapply iedge_intro.
Qed.

Lemma cycles_agree :
  (∃ v, tc (iedge adj) v v) ↔ (∃ x, tc (pm_edge parent_map) x x).
Proof.
  split.
  - intros [v Hv]. exists (key_of parent_map v).
    by apply (tc_congruence (key_of parent_map) _ v v iedge_pm_edge).
  - intros [x Hx]. exists (index_of id_to_index x).
    by apply (tc_congruence (index_of id_to_index) _ x x pm_edge_iedge).
Qed.
End correspondence.

(** ** Lines 9-41 on a parent map *)

Section check.
Context (parent_map : dict (list string)) (Hnd : NoDup (dict_keys parent_map)).

Lemma id_to_index_size :
  length (build_id_to_index (dict_keys parent_map)) = length parent_map.
Proof. rewrite id_to_index_length by done. unfold dict_keys. by rewrite length_fmap. Qed.

(** With all parents declared, the loop returns a count that is the number
    of nodes exactly when the graph has no cycle. *)
Lemma kahn_count_closed fuel :
  pm_closed parent_map → length parent_map ≤ fuel →
  ∃ c, kahn_count fuel parent_map = Returns (c, length parent_map) ∧
    c ≤ length parent_map ∧
    verdict (bool_decide (c = length parent_map))
            (∃ x, tc (pm_edge parent_map) x x).
Proof.
  intros Hcl Hfuel. unfold kahn_count. cbv zeta. rewrite id_to_index_size.
  destruct (build_graph_spec parent_map Hnd)
    as [(_ & deg & -> & Hdeg)|(k & [x ps] & He & Hk & Hnk & _)].
  - cbn [bind fst snd].
    pose proof (adj_of_length parent_map) as Hlen.
    destruct (kahn_run _ fuel deg (adj_of_closed parent_map Hnd Hcl) Hdeg)
      as (queue & c & Hq & Hloop & Hle & Hiff); [by rewrite Hlen|].
    rewrite Hlen in *. rewrite Hq. cbn [bind]. rewrite Hloop. cbn [bind].
    exists c. split_and!; [done..|]. unfold verdict in *.
    destruct (bool_decide (c = length parent_map));
      by rewrite <-(cycles_agree parent_map Hnd Hcl).
  - exfalso. apply Hnk. unfold pm_closed in Hcl. rewrite Forall_forall in Hcl.
    specialize (Hcl _ He). rewrite Forall_forall in Hcl. by apply Hcl.
Qed.

(** With an undeclared parent, line 23 raises [KeyError] on it. *)
Lemma kahn_count_open :
  ¬ pm_closed parent_map →
  ∃ k e, e ∈ parent_map ∧ k ∈ e.2 ∧ ¬ k ∈ dict_keys parent_map ∧
    ∀ fuel, kahn_count fuel parent_map = Raises (KeyError k).
Proof.
  intros Hncl. unfold kahn_count. cbv zeta. rewrite id_to_index_size.
  destruct (build_graph_spec parent_map Hnd)
    as [(Hcl & _)|(k & e & He & Hk & Hnk & ->)]; [done|].
  by exists k, e.
Qed.

Lemma check_parent_map_closed fuel :
  pm_closed parent_map → length parent_map ≤ fuel →
  ∃ b, check_parent_map fuel parent_map = Returns b ∧
    verdict b (∃ x, tc (pm_edge parent_map) x x).
Proof.
  intros Hcl Hfuel. unfold check_parent_map.
  destruct (kahn_count_closed fuel Hcl Hfuel) as (c & Hc & _ & Hv).
  destruct parent_map as [|e pm] eqn:Hpm.
  - exists true. split; [done|]. intros [x Hx].
    destruct Hx as [? ? (ps & [=] & _)|? ? ? (ps & [=] & _) _].
  - rewrite Hc. cbn [bind fst snd]. eexists. split; done.
Qed.

Lemma check_parent_map_open :
  ¬ pm_closed parent_map →
  ∃ k e, e ∈ parent_map ∧ k ∈ e.2 ∧ ¬ k ∈ dict_keys parent_map ∧
    ∀ fuel, check_parent_map fuel parent_map = Raises (KeyError k).
Proof.
  intros Hncl. destruct (kahn_count_open Hncl) as (k & e & He & Hk & Hnk & Hr).
  exists k, e. split_and!; [done..|]. intros fuel. unfold check_parent_map.
  destruct parent_map; [by apply elem_of_nil in He|]. by rewrite Hr.
Qed.
End check.

(** ** The graph a declaration sequence describes *)

Section declarations.
Implicit Types (commit_list : list commit) (x y : string).

Lemma effective_parents_app commit_list1 commit_list2 x :
  effective_parents (commit_list1 ++ commit_list2) x
  = match effective_parents commit_list2 x with
    | Some ps => Some ps
    | None => effective_parents commit_list1 x
    end.
Proof.
  induction commit_list1 as [|[c ps] cl IH]; simpl.
  - by destruct (effective_parents commit_list2 x).
  - rewrite IH. by destruct (effective_parents commit_list2 x).
Qed.

Lemma effective_parents_snoc commit_list c ps x :
  effective_parents (commit_list ++ [(c, ps)]) x
  = if decide (c = x) then Some ps else effective_parents commit_list x.
Proof. rewrite effective_parents_app. simpl. by case_decide. Qed.

Lemma effective_parents_elem commit_list x ps :
  effective_parents commit_list x = Some ps → (x, ps) ∈ commit_list.
Proof.
  induction commit_list as [|[c ps'] cl IH]; simpl; [done|].
  destruct (effective_parents cl x) as [ps''|].
  - intros [= ->]. right. by apply IH.
  - case_decide; [|done]. intros [= ->]. subst. left.
Qed.

Lemma effective_parents_declared_iff commit_list x :
  is_Some (effective_parents commit_list x) ↔ declared commit_list x.
Proof.
  unfold declared. induction commit_list as [|[c ps] cl IH]; simpl.
  - rewrite elem_of_nil. split; [by intros [? ?]|done].
  - rewrite elem_of_cons, <-IH. destruct (effective_parents cl x) as [ps'|].
    + split; eauto.
    + case_decide; subst.
      * split; eauto.
      * split; [by intros [? ?]|]. intros [?|[? ?]]; done.
Qed.

(** The dictionary of lines 5-7 holds the effective parents. *)
Lemma parent_map_get commit_list x :
  dict_get (build_parent_map commit_list) x = effective_parents commit_list x.
Proof.
  induction commit_list as [|[c ps] cl IH] using rev_ind; [done|].
  by rewrite build_parent_map_snoc, dict_get_set, effective_parents_snoc, IH.
Qed.

Lemma parent_map_edge commit_list x y :
  pm_edge (build_parent_map commit_list) x y ↔ edge commit_list x y.
Proof. unfold pm_edge, edge. by setoid_rewrite parent_map_get. Qed.

Lemma parent_map_cycle commit_list :
  (∃ x, tc (pm_edge (build_parent_map commit_list)) x x) ↔ has_cycle commit_list.
Proof.
  assert (∀ x y, tc (pm_edge (build_parent_map commit_list)) x y
                 ↔ tc (edge commit_list) x y) as Htc.
  { intros x y. split; apply (tc_congruence id); intros ? ?; apply parent_map_edge. }
  unfold has_cycle. split; intros [x Hx]; exists x; by apply Htc.
Qed.

Lemma parent_map_closed commit_list :
  pm_closed (build_parent_map commit_list) ↔ effective_parents_declared commit_list.
Proof.
  pose proof (build_parent_map_nodup commit_list) as Hnd.
  unfold pm_closed, effective_parents_declared, edge, declared.
  rewrite Forall_forall. split.
  - intros Hcl x y (ps & Hx & Hy). rewrite <-parent_map_get in Hx.
    apply dict_get_lookup in Hx as [i Hi]; [|done].
    apply list_elem_of_lookup_2, Hcl in Hi. rewrite Forall_forall in Hi.
    by apply build_parent_map_keys, Hi.
  - intros Hd [x ps] [i Hi]%list_elem_of_lookup_1. apply Forall_forall. intros y Hy.
    apply build_parent_map_keys, (Hd x). exists ps. split; [|done].
    rewrite <-parent_map_get. apply dict_get_lookup; [done|]. by exists i.
Qed.

Lemma all_parents_declared_effective commit_list :
  all_parents_declared commit_list → effective_parents_declared commit_list.
Proof.
  intros Hall x y (ps & Hx%effective_parents_elem & Hy). by eapply Hall.
Qed.

Lemma effective_parents_declared_dec commit_list :
  effective_parents_declared commit_list ∨ ¬ effective_parents_declared commit_list.
Proof.
  destruct (decide (pm_closed (build_parent_map commit_list))) as [H|H].
  - left. by apply parent_map_closed.
  - right. by rewrite <-parent_map_closed.
Qed.

(** *** What [is_acyclic] computes *)

(** Once the fuel covers the nodes it is immaterial. *)
Lemma is_acyclic_fuel_enough fuel commit_list :
  length (build_parent_map commit_list) ≤ fuel →
  is_acyclic_fuel fuel commit_list = is_acyclic commit_list.
Proof.
  intros Hfuel. unfold is_acyclic, is_acyclic_fuel.
  pose proof (build_parent_map_nodup commit_list) as Hnd.
  pose proof (build_parent_map_length commit_list) as Hlen.
  destruct (decide (pm_closed (build_parent_map commit_list))) as [Hcl|Hncl].
  - destruct (check_parent_map_closed _ Hnd fuel Hcl Hfuel) as (b & -> & Hb).
    destruct (check_parent_map_closed _ Hnd (length commit_list) Hcl Hlen)
      as (b' & -> & Hb').
    f_equal. by destruct b, b'.
  - destruct (check_parent_map_open _ Hnd Hncl) as (k & e & _ & _ & _ & Hr).
    by rewrite !Hr.
Qed.

(** All effective parents declared: a verdict, [true] exactly when the
    graph has no cycle. *)
Theorem is_acyclic_declared commit_list :
  effective_parents_declared commit_list →
  ∃ b, is_acyclic commit_list = Returns b ∧ verdict b (has_cycle commit_list).
Proof.
  intros Hd%parent_map_closed. unfold is_acyclic, is_acyclic_fuel.
  destruct (check_parent_map_closed _ (build_parent_map_nodup commit_list)
              (length commit_list) Hd (build_parent_map_length commit_list))
    as (b & Hb & Hv).
  exists b. split; [done|]. unfold verdict in *.
  destruct b; by rewrite <-parent_map_cycle.
Qed.

(** Some effective parent not declared: line 23 raises [KeyError] on one. *)
Theorem is_acyclic_undeclared commit_list :
  ¬ effective_parents_declared commit_list →
  ∃ k x, edge commit_list x k ∧ ¬ declared commit_list k ∧
    is_acyclic commit_list = Raises (KeyError k).
Proof.
  intros Hd. rewrite <-parent_map_closed in Hd.
  pose proof (build_parent_map_nodup commit_list) as Hnd.
  destruct (check_parent_map_open _ Hnd Hd) as (k & [x ps] & He & Hk & Hnk & Hr).
  exists k, x. split_and!.
  - exists ps. split; [|done]. rewrite <-parent_map_get.
    apply list_elem_of_lookup_1 in He as [i Hi]. apply dict_get_lookup; eauto.
  - unfold declared. by rewrite <-build_parent_map_keys.
  - apply Hr.
Qed.
End declarations.

(** ** Sequences that describe the same graph *)

Section same_graphs.
Implicit Types (commit_list : list commit) (x y : string).

Lemma verdict_unique b1 b2 (P Q : Prop) :
  (P ↔ Q) → verdict b1 P → verdict b2 Q → b1 = b2.
Proof. unfold verdict. destruct b1, b2; tauto. Qed.

Lemma verdict_true b (P : Prop) : verdict b P → (b = true ↔ ¬ P).
Proof. unfold verdict. destruct b; split; done. Qed.

Lemma verdict_false b (P : Prop) : verdict b P → (b = false ↔ P).
Proof. unfold verdict. destruct b; split; done. Qed.

Lemma same_graph_sym commit_list1 commit_list2 :
  same_graph commit_list1 commit_list2 → same_graph commit_list2 commit_list1.
Proof. intros [H1 H2]. split; intros; symmetry; auto. Qed.

Lemma same_graph_declared commit_list1 commit_list2 :
  same_graph commit_list1 commit_list2 →
  effective_parents_declared commit_list1 → effective_parents_declared commit_list2.
Proof. intros [Hd He] H x y Hxy. apply Hd, (H x). by apply He. Qed.

Lemma same_graph_cycle commit_list1 commit_list2 :
  same_graph commit_list1 commit_list2 →
  has_cycle commit_list1 ↔ has_cycle commit_list2.
Proof.
  intros [_ He]. unfold has_cycle.
  split; intros [x Hx]; exists x; revert Hx; apply (tc_congruence id);
    intros ? ?; apply He.
Qed.

(** The verdict depends on the described graph only. *)
Lemma same_graph_is_acyclic commit_list1 commit_list2 :
  same_graph commit_list1 commit_list2 →
  effective_parents_declared commit_list1 →
  is_acyclic commit_list2 = is_acyclic commit_list1.
Proof.
  intros Hs Hd1. pose proof (same_graph_declared _ _ Hs Hd1) as Hd2.
  destruct (is_acyclic_declared _ Hd1) as (b1 & -> & Hv1).
  destruct (is_acyclic_declared _ Hd2) as (b2 & -> & Hv2).
  f_equal. symmetry. eapply verdict_unique; [|done..]. by apply same_graph_cycle.
Qed.

Lemma same_graph_returns commit_list1 commit_list2 b :
  same_graph commit_list1 commit_list2 →
  is_acyclic commit_list1 = Returns b → is_acyclic commit_list2 = Returns b.
Proof.
  intros Hs Hr. destruct (effective_parents_declared_dec commit_list1) as [Hd|Hd].
  - by rewrite (same_graph_is_acyclic _ _ Hs Hd).
  - destruct (is_acyclic_undeclared _ Hd) as (k & x & _ & _ & Hk). congruence.
Qed.

Lemma same_graph_raises commit_list1 commit_list2 k :
  same_graph commit_list1 commit_list2 →
  is_acyclic commit_list1 = Raises (KeyError k) →
  ∃ k', is_acyclic commit_list2 = Raises (KeyError k').
Proof.
  intros Hs Hr. destruct (effective_parents_declared_dec commit_list2) as [Hd|Hd].
  - rewrite (same_graph_is_acyclic _ _ (same_graph_sym _ _ Hs) Hd) in Hr.
    destruct (is_acyclic_declared _ Hd) as (b & Hb & _). congruence.
  - destruct (is_acyclic_undeclared _ Hd) as (k' & x & _ & _ & Hk). eauto.
Qed.

Lemma same_effective_parents commit_list1 commit_list2 :
  (∀ x, effective_parents commit_list1 x = effective_parents commit_list2 x) →
  same_graph commit_list1 commit_list2.
Proof.
  intros Heq. split.
  - intros x. by rewrite <-!effective_parents_declared_iff, Heq.
  - intros x y. unfold edge. by rewrite Heq.
Qed.

Lemma final_declarations_parents commit_list x :
  effective_parents (final_declarations commit_list) x
  = effective_parents commit_list x.
Proof.
  induction commit_list as [|[c ps] cl IH]; simpl; [done|].
  destruct (decide (c ∈ cl.*1)) as [Hin|Hnin]; simpl; rewrite IH; [|done].
  destruct (effective_parents cl x) as [ps'|] eqn:Hx; [done|].
  case_decide; [|done]. subst.
  apply effective_parents_declared_iff in Hin as [? ?]. congruence.
Qed.

Lemma final_declarations_same commit_list :
  same_graph commit_list (final_declarations commit_list).
Proof.
  apply same_effective_parents. intros x. by rewrite final_declarations_parents.
Qed.

Lemma effective_parents_last commit_list1 x ps commit_list2 :
  ¬ x ∈ commit_list2.*1 →
  effective_parents (commit_list1 ++ (x, ps) :: commit_list2) x = Some ps.
Proof.
  intros Hx. rewrite effective_parents_app. simpl.
  destruct (effective_parents commit_list2 x) eqn:H2.
  - destruct Hx. apply effective_parents_declared_iff. eauto.
  - by rewrite decide_True.
Qed.

(** With pairwise distinct declared identifiers, the effective parents of
    a node are those of its only declaration. *)
Lemma effective_parents_nodup commit_list x ps :
  NoDup commit_list.*1 →
  effective_parents commit_list x = Some ps ↔ (x, ps) ∈ commit_list.
Proof.
  intros Hnd. split; [apply effective_parents_elem|].
  intros (l1 & l2 & ->)%list_elem_of_split. apply effective_parents_last.
  rewrite fmap_app in Hnd. apply NoDup_app in Hnd as (_ & _ & Hnd). simpl in Hnd.
  by apply NoDup_cons in Hnd as [? _].
Qed.

Lemma permutation_same commit_list1 commit_list2 :
  NoDup commit_list1.*1 → commit_list1 ≡ₚ commit_list2 →
  same_graph commit_list1 commit_list2.
Proof.
  intros Hnd Hp. assert (NoDup commit_list2.*1) as Hnd2 by (by rewrite <-Hp).
  split.
  - intros x. unfold declared. by rewrite Hp.
  - intros x y. unfold edge. split; intros (ps & Hx & Hy); exists ps; (split; [|done]).
    + apply effective_parents_nodup; [done|]. rewrite <-Hp.
      by apply effective_parents_nodup.
    + apply effective_parents_nodup; [done|]. rewrite Hp.
      by apply effective_parents_nodup.
Qed.

Lemma reordered_parents_same commit_list1 x ps ps' commit_list2 :
  ps ≡ₚ ps' →
  same_graph (commit_list1 ++ (x, ps) :: commit_list2)
             (commit_list1 ++ (x, ps') :: commit_list2).
Proof.
  intros Hp. split.
  - intros z. unfold declared. by rewrite !fmap_app.
  - intros z y. unfold edge. rewrite !effective_parents_app. simpl.
    destruct (effective_parents commit_list2 z) as [qs|]; [done|].
    case_decide; [|done]. split; intros (qs & [= <-] & Hy); eexists; (split; [done|]).
    + by rewrite <-Hp.
    + by rewrite Hp.
Qed.
End same_graphs.

(** ** Chains *)

Section chains.
Implicit Types (root prev c p x y : string) (ids : list string).

Lemma chain_from_keys prev ids : (chain_from prev ids).*1 = ids.
Proof. revert prev. induction ids as [|c ids IH]; intros prev; csimpl; [done|]. by rewrite IH. Qed.

Lemma chain_from_elem prev ids c ps :
  (c, ps) ∈ chain_from prev ids ↔
  ∃ i p, (prev :: ids) !! i = Some p ∧ ids !! i = Some c ∧ ps = [p].
Proof.
  revert prev. induction ids as [|c0 ids IH]; intros prev; simpl.
  - rewrite elem_of_nil. split; [done|]. by intros (i & p & _ & ? & _).
  - rewrite elem_of_cons, IH. split.
    + intros [[= -> ->]|(i & p & Hp & Hc & ->)].
      * by exists 0, prev.
      * by exists (S i), p.
    + intros ([|i] & p & Hp & Hc & ->); simpl in *.
      * left. congruence.
      * right. by exists i, p.
Qed.

(** Every edge of a chain, closed or not, other than the one leaving the
    root, goes from a node to the node just before it. *)
Lemma chain_from_edge root ps0 ids i c p :
  NoDup (root :: ids) →
  (root :: ids) !! i = Some p → (root :: ids) !! S i = Some c →
  edge ((root, ps0) :: chain_from root ids) c p.
Proof.
  intros Hnd Hp Hc. exists [p]. split; [|left].
  apply effective_parents_nodup; [by csimpl; rewrite chain_from_keys|].
  right. apply chain_from_elem. by exists i, p.
Qed.

Lemma chain_edge_inv root ids x y :
  NoDup (root :: ids) → edge (chain root ids) x y →
  ∃ i, (root :: ids) !! i = Some y ∧ (root :: ids) !! S i = Some x.
Proof.
  intros Hnd (ps & Hx & Hy).
  apply effective_parents_nodup in Hx; [|by csimpl; rewrite chain_from_keys].
  apply elem_of_cons in Hx as [[= -> ->]|Hx]; [by apply elem_of_nil in Hy|].
  apply chain_from_elem in Hx as (i & p & Hp & Hc & ->).
  apply list_elem_of_singleton in Hy as ->. by exists i.
Qed.

Lemma chain_tc_inv root ids x y :
  NoDup (root :: ids) → tc (edge (chain root ids)) x y →
  ∃ i j, i < j ∧ (root :: ids) !! i = Some y ∧ (root :: ids) !! j = Some x.
Proof.
  intros Hnd Hxy. induction Hxy as [x y Hxy|x z y Hxz _ (i & j & Hij & Hi & Hj)].
  - apply chain_edge_inv in Hxy as (i & ? & ?); [|done]. exists i, (S i). auto.
  - apply chain_edge_inv in Hxz as (k & Hk & Hk'); [|done].
    assert (j = k) as -> by (by eapply NoDup_lookup).
    exists i, (S k). split_and!; [lia|done..].
Qed.

Lemma chain_acyclic root ids : NoDup (root :: ids) → ¬ has_cycle (chain root ids).
Proof.
  intros Hnd [x (i & j & Hij & Hi & Hj)%chain_tc_inv]; [|done].
  assert (i = j) by (by eapply NoDup_lookup). lia.
Qed.

Lemma chain_parents_declared root ps0 ids :
  (∀ p, p ∈ ps0 → p ∈ root :: ids) →
  all_parents_declared ((root, ps0) :: chain_from root ids).
Proof.
  intros Hps0 c ps p Hc Hp. unfold declared. csimpl. rewrite chain_from_keys.
  apply elem_of_cons in Hc as [[= -> ->]|Hc]; [auto|].
  apply chain_from_elem in Hc as (i & q & Hq & _ & ->).
  apply list_elem_of_singleton in Hp as ->. by eapply list_elem_of_lookup_2.
Qed.

Lemma last_chain root ids : last (root :: ids) = Some (default root (last ids)).
Proof. rewrite last_cons. by destruct (last ids). Qed.

Lemma closed_chain_reaches_root root ids i x :
  NoDup (root :: ids) → (root :: ids) !! i = Some x →
  rtc (edge (closed_chain root ids)) x root.
Proof.
  intros Hnd. revert x. induction i as [|i IH]; intros x Hx.
  - simpl in Hx. injection Hx as ->. apply rtc_refl.
  - destruct (lookup_lt_is_Some_2 (root :: ids) i) as [p Hp].
    { apply lookup_lt_Some in Hx. lia. }
    eapply rtc_l; [|by apply IH]. by eapply chain_from_edge.
Qed.

Lemma closed_chain_cycle root ids : NoDup (root :: ids) → has_cycle (closed_chain root ids).
Proof.
  intros Hnd. exists root. pose proof (last_chain root ids) as Hlast.
  rewrite last_lookup in Hlast.
  eapply tc_rtc_r; [|by eapply closed_chain_reaches_root].
  apply tc_once. exists [default root (last ids)]. split; [|left].
  apply effective_parents_nodup; [by csimpl; rewrite chain_from_keys|]. left.
Qed.

Lemma closed_chain_parents_declared root ids :
  all_parents_declared (closed_chain root ids).
Proof.
  apply chain_parents_declared. intros p ->%list_elem_of_singleton.
  eapply last_Some_elem_of, last_chain.
Qed.
End chains.

(** ** Verdicts *)

Section verdicts.
Implicit Types (commit_list : list commit).

Lemma is_acyclic_true commit_list :
  effective_parents_declared commit_list → ¬ has_cycle commit_list →
  is_acyclic commit_list = Returns true.
Proof.
  intros Hd Hno. destruct (is_acyclic_declared _ Hd) as (b & -> & Hv).
  f_equal. by apply (verdict_true _ _ Hv).
Qed.

Lemma is_acyclic_false commit_list :
  effective_parents_declared commit_list → has_cycle commit_list →
  is_acyclic commit_list = Returns false.
Proof.
  intros Hd Hcyc. destruct (is_acyclic_declared _ Hd) as (b & -> & Hv).
  f_equal. by apply (verdict_false _ _ Hv).
Qed.

Lemma self_loop_cycle commit_list x ps :
  effective_parents commit_list x = Some ps → x ∈ ps → has_cycle commit_list.
Proof. intros Hx Hin. exists x. apply tc_once. by exists ps. Qed.

(** Appending a declaration of the root overrides the root's parents like
    replacing its declaration in place. *)
Lemma override_root_same root ps0 ps1 ids :
  ¬ root ∈ ids →
  same_graph ((root, ps1) :: chain_from root ids)
             (((root, ps0) :: chain_from root ids) ++ [(root, ps1)]).
Proof.
  intros Hroot. apply same_effective_parents. intros x.
  rewrite effective_parents_snoc. simpl.
  destruct (effective_parents (chain_from root ids) x) as [ps|] eqn:Hx.
  - rewrite decide_False; [done|]. intros <-. apply Hroot.
    rewrite <-(chain_from_keys root ids). apply effective_parents_declared_iff. eauto.
  - by case_decide.
Qed.

Lemma permutation_is_acyclic commit_list commit_list' :
  NoDup commit_list.*1 → all_parents_declared commit_list →
  commit_list ≡ₚ commit_list' →
  is_acyclic commit_list' = is_acyclic commit_list.
Proof.
  intros Hnd Hall Hp. apply same_graph_is_acyclic.
  - by apply permutation_same.
  - by apply all_parents_declared_effective.
Qed.

Lemma chain_declared root ids : all_parents_declared (chain root ids).
Proof. apply chain_parents_declared. by intros ? ?%elem_of_nil. Qed.

Lemma chain_permutation_true root ids commit_list' :
  NoDup (root :: ids) → chain root ids ≡ₚ commit_list' →
  is_acyclic commit_list' = Returns true.
Proof.
  intros Hnd Hp.
  rewrite (permutation_is_acyclic (chain root ids) commit_list').
  - apply is_acyclic_true; [|by apply chain_acyclic].
    apply all_parents_declared_effective, chain_declared.
  - unfold chain. csimpl. by rewrite chain_from_keys.
  - apply chain_declared.
  - done.
Qed.
End verdicts.

(** ** The claims of the specification *)

Section claims.
Local Open Scope string_scope.
Local Open Scope list_scope.

(** C1. For every declaration sequence in which every parent identifier also
    occurs as a declared node, [is_acyclic] returns a boolean, and it returns
    [true] if and only if the graph built from the last-write-wins parent
    mapping contains no directed cycle; equivalently, Kahn's visited count
    equals the node count exactly when the graph is acyclic. *)
Theorem C1_is_acyclic_iff_no_cycle (commit_list : list commit) :
  all_parents_declared commit_list →
  (∃ b, is_acyclic commit_list = Returns b) ∧
  (is_acyclic commit_list = Returns true ↔ ¬ has_cycle commit_list) ∧
  (is_acyclic commit_list = Returns false ↔ has_cycle commit_list) ∧
  (∃ visited_count,
     kahn_count (length commit_list) (build_parent_map commit_list)
     = Returns (visited_count, length (build_parent_map commit_list)) ∧
     (visited_count = length (build_parent_map commit_list)
      ↔ ¬ has_cycle commit_list)).
Proof.
  intros Hall%all_parents_declared_effective.
  destruct (is_acyclic_declared _ Hall) as (b & Hb & Hv). rewrite Hb.
  split_and!.
  - by exists b.
  - rewrite <-(verdict_true _ _ Hv). split; [by intros [= ->]|by intros ->].
  - rewrite <-(verdict_false _ _ Hv). split; [by intros [= ->]|by intros ->].
  - apply parent_map_closed in Hall.
    destruct (kahn_count_closed _ (build_parent_map_nodup commit_list)
                (length commit_list) Hall (build_parent_map_length commit_list))
      as (c & Hc & _ & Hvc).
    exists c. split; [done|]. apply verdict_true in Hvc.
    by rewrite <-parent_map_cycle, <-Hvc, bool_decide_eq_true.
Qed.

Lemma C1_witness :
  is_acyclic [("A", ["B"]); ("B", ["A"])] = Returns false
  ↔ has_cycle [("A", ["B"]); ("B", ["A"])].
Proof.
  apply (C1_is_acyclic_iff_no_cycle [("A", ["B"]); ("B", ["A"])]).
  apply (bool_decide_unpack _). vm_compute. exact I.
Defined.

(** C2 as stated fails: a parent identifier that is never declared but
    occurs only in an overridden declaration is never looked up. *)
Lemma C2_counterexample :
  ("A", ["X"]) ∈ [("A", ["X"]); ("A", [])] ∧
  ¬ declared [("A", ["X"]); ("A", [])] "X" ∧
  is_acyclic [("A", ["X"]); ("A", [])] = Returns true.
Proof.
  split_and!; [left| |by vm_compute].
  unfold declared. apply (bool_decide_unpack _). vm_compute. exact I.
Qed.

(** C2, amended. For every input sequence in which the effective
    (last-declared) parent list of some identifier contains an identifier
    that is never declared, [is_acyclic] does not return a boolean: the
    edge-construction step raises [KeyError] on such an undeclared
    effective parent, whatever the fuel. *)
Theorem C2_undeclared_effective_parent_raises (commit_list : list commit) x k :
  edge commit_list x k → ¬ declared commit_list k →
  ∃ k' x', edge commit_list x' k' ∧ ¬ declared commit_list k' ∧
    is_acyclic commit_list = Raises (KeyError k') ∧
    ∀ fuel, is_acyclic_fuel fuel commit_list = Raises (KeyError k').
Proof.
  intros Hxk Hk.
  assert (¬ pm_closed (build_parent_map commit_list)) as Hncl.
  { rewrite parent_map_closed. intros Hd. by apply Hk, (Hd x). }
  pose proof (build_parent_map_nodup commit_list) as Hnd.
  destruct (check_parent_map_open _ Hnd Hncl) as (k' & [x' ps] & He & Hk' & Hnk & Hr).
  exists k', x'. split_and!.
  - exists ps. split; [|done]. rewrite <-parent_map_get.
    apply list_elem_of_lookup_1 in He as [i Hi]. apply dict_get_lookup; eauto.
  - unfold declared. by rewrite <-build_parent_map_keys.
  - apply Hr.
  - intros fuel. apply Hr.
Qed.

Lemma C2_witness :
  ∃ k' x', edge [("A", ["B"; "X"]); ("B", [])] x' k' ∧
    ¬ declared [("A", ["B"; "X"]); ("B", [])] k' ∧
    is_acyclic [("A", ["B"; "X"]); ("B", [])] = Raises (KeyError k') ∧
    ∀ fuel, is_acyclic_fuel fuel [("A", ["B"; "X"]); ("B", [])] = Raises (KeyError k').
Proof.
  apply (C2_undeclared_effective_parent_raises [("A", ["B"; "X"]); ("B", [])] "A" "X").
  - exists ["B"; "X"]. split; [by vm_compute|]. right. left.
  - unfold declared. apply (bool_decide_unpack _). vm_compute. exact I.
Defined.

(** C3 as stated fails: when both calls fault, the key of the [KeyError] can
    differ, because removing the non-final declarations changes the order in
    which the dictionary is iterated. *)
Lemma C3_counterexample :
  is_acyclic [("A", ["X"]); ("B", ["Y"]); ("A", ["Z"])] = Raises (KeyError "Z") ∧
  is_acyclic (final_declarations [("A", ["X"]); ("B", ["Y"]); ("A", ["Z"])])
  = Raises (KeyError "Y") ∧
  is_acyclic [("A", ["X"]); ("B", ["Y"]); ("A", ["Z"])]
  ≠ is_acyclic (final_declarations [("A", ["X"]); ("B", ["Y"]); ("A", ["Z"])]).
Proof. split_and!; [by vm_compute|by vm_compute|]. vm_compute. discriminate. Qed.

(** C3, amended. Override semantics are last-write-wins: the dictionary
    holds, for an identifier, the parent list of its last declaration;
    [is_acyclic] returns a boolean [b] on a sequence exactly when it returns
    [b] on the sequence with every non-final declaration removed, and
    raises [KeyError] on one exactly when it does on the other, possibly
    with another key; and [[(X, P); (X, P)]] behaves as [[(X, P)]]. *)
Theorem C3_last_write_wins (commit_list : list commit) :
  (∀ l1 X P l2, commit_list = l1 ++ (X, P) :: l2 → ¬ X ∈ l2.*1 →
     dict_get (build_parent_map commit_list) X = Some P) ∧
  (∀ b, is_acyclic commit_list = Returns b
        ↔ is_acyclic (final_declarations commit_list) = Returns b) ∧
  ((∃ k, is_acyclic commit_list = Raises (KeyError k))
   ↔ (∃ k, is_acyclic (final_declarations commit_list) = Raises (KeyError k))) ∧
  (∀ X P, is_acyclic [(X, P); (X, P)] = is_acyclic [(X, P)]).
Proof.
  pose proof (final_declarations_same commit_list) as Hs.
  pose proof (same_graph_sym _ _ Hs) as Hs'.
  split_and!.
  - intros l1 X P l2 -> HX. rewrite parent_map_get. by apply effective_parents_last.
  - intros b. split; by apply same_graph_returns.
  - split; intros [k Hk]; by eapply same_graph_raises.
  - intros X P. rewrite <-(is_acyclic_fuel_enough 2 [(X, P)]) by (simpl; lia).
    unfold is_acyclic, is_acyclic_fuel, build_parent_map. simpl.
    by rewrite decide_True.
Qed.

Lemma C3_witness :
  dict_get (build_parent_map [("A", ["B"]); ("B", []); ("A", [])]) "A" = Some [].
Proof.
  apply (proj1 (C3_last_write_wins [("A", ["B"]); ("B", []); ("A", [])])
           [("A", ["B"]); ("B", [])] "A" [] []); [reflexivity|].
  apply (bool_decide_unpack _). vm_compute. exact I.
Defined.

(** C4 as stated fails: a later declaration of the same identifier
    overrides the self-reference away. *)
Lemma C4_counterexample :
  ("A", ["A"]) ∈ [("A", ["A"]); ("A", [])] ∧ "A" ∈ ["A"] ∧
  is_acyclic [("A", ["A"]); ("A", [])] = Returns true.
Proof. split_and!; [left|left|by vm_compute]. Qed.

(** C4, amended. For every input whose effective parents are all declared,
    if the last declaration of an identifier lists the identifier among its
    own parents, [is_acyclic] returns [false] (self-loop detection). *)
Theorem C4_self_loop (commit_list : list commit) x ps :
  effective_parents commit_list x = Some ps → x ∈ ps →
  effective_parents_declared commit_list →
  is_acyclic commit_list = Returns false.
Proof.
  intros Hx Hin Hd. apply is_acyclic_false; [done|]. by eapply self_loop_cycle.
Qed.

Lemma C4_witness :
  is_acyclic [("A", ["B"]); ("A", []); ("B", ["A"; "B"])] = Returns false.
Proof.
  apply (C4_self_loop [("A", ["B"]); ("A", []); ("B", ["A"; "B"])] "B" ["A"; "B"]).
  - reflexivity.
  - right. left.
  - apply all_parents_declared_effective.
    apply (bool_decide_unpack _). vm_compute. exact I.
Defined.

(** C5. The verdict is order-independent: with pairwise distinct declared
    identifiers and all parents declared, every permutation of the sequence
    gives the same result; in particular a chain of [N ≥ 1] nodes gives
    [true] in any declaration order. *)
Theorem C5_order_independent :
  (∀ commit_list commit_list' : list commit,
     NoDup commit_list.*1 → all_parents_declared commit_list →
     commit_list ≡ₚ commit_list' →
     is_acyclic commit_list' = is_acyclic commit_list) ∧
  (∀ root ids (commit_list' : list commit),
     NoDup (root :: ids) → chain root ids ≡ₚ commit_list' →
     is_acyclic commit_list' = Returns true).
Proof.
  split.
  - intros cl cl'. apply permutation_is_acyclic.
  - intros root ids cl'. apply chain_permutation_true.
Qed.

Lemma C5_witness :
  is_acyclic [("c", ["b"]); ("a", []); ("b", ["a"])]
  = is_acyclic [("a", []); ("b", ["a"]); ("c", ["b"])] ∧
  is_acyclic [("c", ["b"]); ("a", []); ("b", ["a"])] = Returns true.
Proof.
  assert ([("a", []); ("b", ["a"]); ("c", ["b"])]
          ≡ₚ [("c", ["b"]); ("a", []); ("b", ["a"])]) as Hp.
  { symmetry. apply (Permutation_cons_append [("a", []); ("b", ["a"])] ("c", ["b"])). }
  split.
  - apply (proj1 C5_order_independent [("a", []); ("b", ["a"]); ("c", ["b"])]).
    + apply (bool_decide_unpack _). vm_compute. exact I.
    + apply (bool_decide_unpack _). vm_compute. exact I.
    + exact Hp.
  - apply (proj2 C5_order_independent "a" ["b"; "c"]).
    + apply (bool_decide_unpack _). vm_compute. exact I.
    + exact Hp.
Defined.

(** C6. The empty declaration sequence yields [true]. *)
Theorem C6_empty : is_acyclic [] = Returns true.
Proof. reflexivity. Qed.

(** C7. Cycle closing: a chain of distinct nodes is acyclic, and redirecting
    the root's parent list to the latest node makes [is_acyclic] return
    [false], whether the root's declaration is replaced in place or
    overridden by a declaration appended to the chain. *)
Theorem C7_cycle_closing root ids :
  NoDup (root :: ids) →
  is_acyclic (chain root ids) = Returns true ∧
  is_acyclic (closed_chain root ids) = Returns false ∧
  is_acyclic (chain root ids ++ [(root, [default root (last ids)])]) = Returns false.
Proof.
  intros Hnd.
  pose proof (all_parents_declared_effective _ (closed_chain_parents_declared root ids))
    as Hd.
  pose proof (is_acyclic_false _ Hd (closed_chain_cycle root ids Hnd)) as Hclosed.
  split_and!.
  - by apply (chain_permutation_true root ids).
  - done.
  - rewrite <-Hclosed. apply same_graph_is_acyclic; [|done].
    apply override_root_same. by apply NoDup_cons in Hnd as [? _].
Qed.

Lemma C7_witness :
  is_acyclic (chain "a" ["b"; "c"]) = Returns true ∧
  is_acyclic (closed_chain "a" ["b"; "c"]) = Returns false ∧
  is_acyclic (chain "a" ["b"; "c"] ++ [("a", [default "a" (last ["b"; "c"])])])
  = Returns false.
Proof.
  apply (C7_cycle_closing "a" ["b"; "c"]).
  apply (bool_decide_unpack _). vm_compute. exact I.
Defined.

(** C8. [is_acyclic] terminates on every input whose parent ids are all
    declared: with one unit of fuel per node the work-queue loop returns,
    having run [visited_count ≤ n] iterations, so the function returns a
    boolean and more fuel never changes it. *)
Theorem C8_terminates (commit_list : list commit) fuel :
  all_parents_declared commit_list →
  (length (build_parent_map commit_list) ≤ fuel)%nat →
  (∃ visited_count,
     kahn_count fuel (build_parent_map commit_list)
     = Returns (visited_count, length (build_parent_map commit_list)) ∧
     (visited_count ≤ length (build_parent_map commit_list))%nat) ∧
  (∃ b, is_acyclic_fuel fuel commit_list = Returns b ∧
        is_acyclic commit_list = Returns b).
Proof.
  intros Hall%all_parents_declared_effective Hfuel. split.
  - apply parent_map_closed in Hall.
    destruct (kahn_count_closed _ (build_parent_map_nodup commit_list) fuel Hall Hfuel)
      as (c & Hc & Hle & _).
    by exists c.
  - destruct (is_acyclic_declared _ Hall) as (b & Hb & _).
    exists b. by rewrite is_acyclic_fuel_enough.
Qed.

Lemma C8_witness :
  ∃ b, is_acyclic_fuel 2 [("A", ["B"; "B"]); ("B", ["A"]); ("A", ["B"; "B"])] = Returns b ∧
       is_acyclic [("A", ["B"; "B"]); ("B", ["A"]); ("A", ["B"; "B"])] = Returns b.
Proof.
  apply (C8_terminates [("A", ["B"; "B"]); ("B", ["A"]); ("A", ["B"; "B"])] 2).
  - apply (bool_decide_unpack _). vm_compute. exact I.
  - vm_compute. lia.
Defined.

(** C10. Reordering the parents within a declaration, keeping
    multiplicities, leaves the result unchanged on every input whose parent
    ids are all declared. *)
Theorem C10_parent_order_irrelevant (l1 l2 : list commit) x ps ps' :
  ps ≡ₚ ps' → all_parents_declared (l1 ++ (x, ps) :: l2) →
  is_acyclic (l1 ++ (x, ps') :: l2) = is_acyclic (l1 ++ (x, ps) :: l2).
Proof.
  intros Hp Hall. apply same_graph_is_acyclic.
  - by apply reordered_parents_same.
  - by apply all_parents_declared_effective.
Qed.

Lemma C10_witness :
  is_acyclic [("r", []); ("x", ["r"]); ("m", ["r"; "x"; "x"])]
  = is_acyclic [("r", []); ("x", ["r"]); ("m", ["x"; "r"; "x"])].
Proof.
  apply (C10_parent_order_irrelevant [("r", []); ("x", ["r"])] []
           "m" ["x"; "r"; "x"] ["r"; "x"; "x"]).
  - apply perm_swap.
  - apply (bool_decide_unpack _). vm_compute. exact I.
Defined.
End claims.

(** ** The function over a store of list objects *)

Section store.
Implicit Types (h : heap) (l : loc) (parent_map : dict loc).

Lemma alloc_fresh h o : h !! (alloc h o).1 = None.
Proof. unfold alloc. simpl. apply not_elem_of_dom, is_fresh. Qed.

Lemma alloc_frame h o : h ⊆ (alloc h o).2.
Proof. apply insert_subseteq, (alloc_fresh h o). Qed.

Lemma alloc_lookup h o : (alloc h o).2 !! (alloc h o).1 = Some o.
Proof. unfold alloc. simpl. apply lookup_insert_eq. Qed.

(** Lines 5-7 only add objects. *)
Lemma store_copies_frame items : ∀ parent_map h, h ⊆ (store_copies items parent_map h).2.
Proof.
  induction items as [|[c l] items IH]; intros parent_map h; simpl; [done|].
  destruct (h !! l) as [[|ps]|]; [done| |done].
  etrans; [apply (alloc_frame h (Parents ps))|apply IH].
Qed.

Lemma dict_set_Forall2 {V W} (R : string * V → string * W → Prop)
    (d : dict V) (d' : dict W) k v w :
  (∀ e e', R e e' → e.1 = e'.1) → (∀ e e', R e e' → R (e.1, v) (e'.1, w)) →
  R (k, v) (k, w) → Forall2 R d d' → Forall2 R (dict_set d k v) (dict_set d' k w).
Proof.
  intros Hkey Hset Hkv Hd. induction Hd as [|[k1 v1] [k2 w2] d d' He Hd IH]; simpl.
  - by constructor.
  - pose proof (Hkey _ _ He) as Hk. simpl in Hk. subst k2. case_decide.
    + constructor; [|done]. apply (Hset _ _ He).
    + by constructor.
Qed.

(** Every value stored in [parent_map] is a copy made by the function. *)
Lemma store_copies_spec items : ∀ cl parent_map pm h0 h,
  h0 ⊆ h →
  Forall2 (λ (it : string * loc) (d : commit),
             it.1 = d.1 ∧ h0 !! it.2 = Some (Parents d.2)) items cl →
  Forall2 (λ (e : string * loc) (d : commit),
             e.1 = d.1 ∧ h !! e.2 = Some (Parents d.2) ∧ h0 !! e.2 = None)
          parent_map pm →
  ∃ parent_map',
    (store_copies items parent_map h).1 = Returns parent_map' ∧
    Forall2 (λ (e : string * loc) (d : commit),
               e.1 = d.1 ∧
               (store_copies items parent_map h).2 !! e.2 = Some (Parents d.2) ∧
               h0 !! e.2 = None)
            parent_map'
            (foldl (λ (parent_map : dict (list string)) '(commit_id, parents),
                      dict_set parent_map commit_id parents) pm cl).
Proof.
  induction items as [|[c l] items IH]; intros cl parent_map pm h0 h Hsub Hitems Hpm.
  - apply Forall2_nil_inv_l in Hitems as ->. by exists parent_map.
  - apply Forall2_cons_inv_l in Hitems as ([c' ps] & cl' & [Hc Hl] & Hitems & ->).
    simpl in Hc, Hl. subst c'. simpl.
    rewrite (lookup_weaken _ _ _ _ Hl Hsub).
    apply IH; [etrans; [exact Hsub|apply (alloc_frame h (Parents ps))]|done|].
    apply dict_set_Forall2.
    + by intros ? ? [? _].
    + intros e e' (? & ? & ?).
      split_and!; [done|apply (alloc_lookup h (Parents ps))|].
      apply (lookup_weaken_None _ h); [apply (alloc_fresh h (Parents ps))|done].
    + split_and!; [done|apply (alloc_lookup h (Parents ps))|].
      apply (lookup_weaken_None _ h); [apply (alloc_fresh h (Parents ps))|done].
    + eapply Forall2_impl; [done|]. intros e e' (? & He & ?).
      split_and!; [done| |done].
      eapply lookup_weaken; [done|apply (alloc_frame h (Parents ps))].
Qed.

Lemma items_of_spec h parent_map pm :
  Forall2 (λ (e : string * loc) (d : commit),
             e.1 = d.1 ∧ h !! e.2 = Some (Parents d.2)) parent_map pm →
  items_of h parent_map = Returns pm.
Proof.
  induction 1 as [|[k l] [k' ps] parent_map pm [Hk Hl] _ IH]; simpl in *; [done|].
  subst k'. by rewrite Hl, IH.
Qed.

(** On a well-formed store the function computes what [is_acyclic]
    computes on the sequence the argument denotes. *)
Lemma is_acyclic_heap_result h commit_list cl :
  represents h commit_list cl →
  (is_acyclic_heap h commit_list).1 = is_acyclic cl.
Proof.
  intros (items & Harg & Hitems). unfold is_acyclic_heap. rewrite Harg. simpl.
  destruct (store_copies_spec items cl [] [] h h) as (pm & Hpm & Hrep);
    [done..|constructor|].
  rewrite Hpm. cbn [bind].
  rewrite (items_of_spec _ pm (build_parent_map cl)).
  - cbn [bind]. by rewrite (Forall2_length _ _ _ Hitems).
  - eapply Forall2_impl; [done|]. by intros ? ? (? & ? & ?).
Qed.
End store.

Section purity.
Implicit Types (h : heap) (parent_map : dict loc).

Lemma elem_of_dict_set {V} (d : dict V) k v e :
  e ∈ dict_set d k v → e = (k, v) ∨ e ∈ d.
Proof.
  induction d as [|[k0 v0] d IH]; simpl.
  - intros ->%list_elem_of_singleton. by left.
  - case_decide; subst.
    + intros [->|?]%elem_of_cons; [by left|]. right. by right.
    + intros [->|[->|?]%IH]%elem_of_cons; [right; left|by left|]. right. by right.
Qed.

Lemma store_copies_fresh items : ∀ parent_map h0 h parent_map',
  h0 ⊆ h → (∀ e, e ∈ parent_map → h0 !! e.2 = None) →
  (store_copies items parent_map h).1 = Returns parent_map' →
  ∀ e, e ∈ parent_map' → h0 !! e.2 = None.
Proof.
  induction items as [|[c l] items IH]; intros parent_map h0 h parent_map' Hsub Hpm; simpl.
  - by intros [= <-].
  - destruct (h !! l) as [[|ps]|]; [done| |done].
    apply IH; [etrans; [exact Hsub|apply (alloc_frame h (Parents ps))]|].
    intros e [->|?]%elem_of_dict_set; [|by apply Hpm].
    apply (lookup_weaken_None _ h); [apply (alloc_fresh h (Parents ps))|done].
Qed.

(** C9. [is_acyclic] does not mutate its argument: every object that exists
    before the call, the outer declaration list and each parent list
    included, is the same after it, so the argument denotes the same
    sequence; the references the function stores are to copies it made
    itself; and the outcome is a function of the denoted sequence alone. *)
Theorem C9_argument_not_mutated h (commit_list : loc) :
  (∀ l o, h !! l = Some o → (is_acyclic_heap h commit_list).2 !! l = Some o) ∧
  (∀ cl, represents h commit_list cl →
     represents (is_acyclic_heap h commit_list).2 commit_list cl ∧
     (is_acyclic_heap h commit_list).1 = is_acyclic cl) ∧
  (∀ items parent_map e,
     h !! commit_list = Some (Commits items) →
     (store_copies items [] h).1 = Returns parent_map →
     e ∈ parent_map → h !! e.2 = None).
Proof.
  assert (h ⊆ (is_acyclic_heap h commit_list).2) as Hframe.
  { unfold is_acyclic_heap. destruct (h !! commit_list) as [[items|]|]; [|done..].
    apply store_copies_frame. }
  split_and!.
  - intros l o Hl. by eapply lookup_weaken.
  - intros cl Hrep. split; [|by apply is_acyclic_heap_result].
    destruct Hrep as (items & Harg & Hitems). exists items.
    split; [by eapply lookup_weaken|].
    eapply Forall2_impl; [done|]. intros it d [? ?]. split; [done|].
    by eapply lookup_weaken.
  - intros items parent_map e _ Hst He.
    apply (store_copies_fresh items [] h h parent_map); [done| |done..].
    by intros ? ?%elem_of_nil.
Qed.
End purity.

Section purity_example.
Local Open Scope string_scope.
Local Open Scope list_scope.

Lemma C9_witness :
  (is_acyclic_heap example_heap 1).2 !! 2%positive = Some (Parents ["B"]) ∧
  (is_acyclic_heap example_heap 1).1
  = is_acyclic [("A", ["B"]); ("B", []); ("A", ["B"])].
Proof.
  split.
  - apply (proj1 (C9_argument_not_mutated example_heap 1)). reflexivity.
  - apply (proj1 (proj2 (C9_argument_not_mutated example_heap 1))).
    exists [("A", 2%positive); ("B", 3%positive); ("A", 2%positive)].
    split; [reflexivity|]. repeat constructor.
Defined.
End purity_example.


(** * Further properties of the function *)

(** ** The outcome on every input *)

Section first_fault.
Context (parent_map : dict (list string)) (Hnd : NoDup (dict_keys parent_map)).
Let id_to_index := build_id_to_index (dict_keys parent_map).

Lemma undeclared_no_index p :
  ¬ p ∈ dict_keys parent_map → dict_get id_to_index p = None.
Proof.
  intros Hp. apply dict_get_None. unfold id_to_index. by rewrite id_to_index_keys.
Qed.

Lemma declared_index p :
  p ∈ dict_keys parent_map → ∃ v, dict_get id_to_index p = Some v.
Proof.
  intros Hp. apply (dict_get_is_Some id_to_index p).
  unfold id_to_index. by rewrite id_to_index_keys.
Qed.

(** Lines 22-25 stop at the first parent without an index. *)
Lemma add_parents_first A B ps : ∀ r in_degree k,
  degrees_of (A ++ r :: B) in_degree → length (A ++ r :: B) = length parent_map →
  head (filter (λ p, ¬ p ∈ dict_keys parent_map) ps) = Some k →
  add_parents id_to_index (length A) ps (A ++ r :: B, in_degree) = Raises (KeyError k).
Proof.
  unfold add_parents.
  induction ps as [|p ps IH]; intros r in_degree k Hd Hn Hk; [done|].
  cbn [for_each]. unfold dict_item at 1.
  destruct (decide (p ∈ dict_keys parent_map)) as [Hp|Hp].
  - rewrite filter_cons_False in Hk by tauto.
    destruct (declared_index p Hp) as [v Hv]. rewrite Hv. cbn [bind].
    destruct (add_edge_spec parent_map A r B in_degree v Hd) as (deg1 & -> & Hd1).
    { rewrite Hn. by eapply index_range. }
    cbn [bind]. apply IH; [done| |done]. rewrite <-Hn, !length_app. done.
  - rewrite filter_cons_True in Hk by done. simpl in Hk. injection Hk as <-.
    by rewrite (undeclared_no_index p Hp).
Qed.

(** Lines 20-25 stop at the first parent, in iteration order, without an
    index. *)
Lemma build_graph_first post : ∀ pre in_degree k,
  parent_map = pre ++ post →
  degrees_of (adj_of id_to_index pre ++ replicate (length post) []) in_degree →
  head (filter (λ p, ¬ p ∈ dict_keys parent_map) (concat post.*2)) = Some k →
  build_graph id_to_index post
    (adj_of id_to_index pre ++ replicate (length post) [], in_degree)
  = Raises (KeyError k).
Proof.
  unfold build_graph.
  induction post as [|[cid ps] post IH]; intros pre in_degree k Hpm Hd Hk; [done|].
  cbn [for_each].
  assert (dict_get id_to_index cid = Some (length pre)) as Hcid.
  { apply (index_of_key parent_map Hnd _ _ ps). rewrite Hpm. by apply list_lookup_middle. }
  unfold dict_item at 1. rewrite Hcid. cbn [bind length replicate] in *.
  assert (length (adj_of id_to_index pre) = length pre) as Hlen.
  { unfold adj_of. by rewrite length_fmap. }
  assert (length (adj_of id_to_index pre ++ [] :: replicate (length post) [])
          = length parent_map) as Hn.
  { rewrite length_app, Hlen. simpl. rewrite length_replicate, Hpm, length_app. done. }
  rewrite <-Hlen. csimpl in Hk. rewrite filter_app in Hk.
  destruct (filter (λ p, ¬ p ∈ dict_keys parent_map) ps) as [|k0 ks] eqn:Hps.
  - destruct (add_parents_spec parent_map Hnd (adj_of id_to_index pre)
                (replicate (length post) []) ps [] in_degree Hd Hn)
      as [(Hall & deg1 & Hr & Hd1)|(k' & Hk' & Hnk & _)].
    + fold id_to_index in Hr. rewrite Hr. cbn [bind].
      assert (adj_of id_to_index (pre ++ [(cid, ps)]) ++ replicate (length post) []
              = adj_of id_to_index pre
                ++ ([] ++ (index_of id_to_index <$> ps)) :: replicate (length post) [])
        as Heq.
      { unfold adj_of. rewrite fmap_app, <-app_assoc. done. }
      rewrite <-Heq. apply IH; [by rewrite <-app_assoc|by rewrite Heq|done].
    + exfalso. assert (k' ∈ filter (λ p, ¬ p ∈ dict_keys parent_map) ps) as Hin.
      { by apply list_elem_of_filter. }
      rewrite Hps in Hin. by apply elem_of_nil in Hin.
  - simpl in Hk. injection Hk as ->.
    rewrite (add_parents_first _ _ ps [] in_degree k Hd Hn); [done|].
    by rewrite Hps.
Qed.

Lemma elem_of_concat {A} (x : A) (ls : list (list A)) :
  x ∈ concat ls ↔ ∃ l, x ∈ l ∧ l ∈ ls.
Proof.
  induction ls as [|l0 ls IH]; simpl.
  - rewrite elem_of_nil. split; [done|]. by intros (l & _ & ?%elem_of_nil).
  - rewrite elem_of_app, IH. split.
    + intros [?|(l & ? & ?)]; [exists l0; split; [done|left]|].
      exists l. split; [done|by right].
    + intros (l & Hx & [->|Hl]%elem_of_cons); [by left|]. right. by exists l.
Qed.

Lemma first_undeclared_spec k :
  first_undeclared parent_map = Some k →
  ¬ k ∈ dict_keys parent_map ∧ ∃ x, pm_edge parent_map x k.
Proof.
  unfold first_undeclared. intros Hk%head_Some_elem_of.
  apply list_elem_of_filter in Hk as [Hnk Hk]. split; [done|].
  apply elem_of_concat in Hk as (ps & Hk & Hps).
  apply list_elem_of_fmap in Hps as ([x ps'] & -> & Hx). exists x, ps'.
  split; [|done]. apply list_elem_of_lookup_1 in Hx as [i Hi].
  apply dict_get_lookup; eauto.
Qed.

Lemma first_undeclared_closed :
  first_undeclared parent_map = None → pm_closed parent_map.
Proof.
  unfold first_undeclared, pm_closed. intros Hnone.
  apply Forall_forall. intros [x ps] Hx. apply Forall_forall. intros p Hp.
  destruct (decide (p ∈ dict_keys parent_map)) as [|Hn]; [done|]. exfalso.
  assert (p ∈ filter (λ p, ¬ p ∈ dict_keys parent_map) (concat parent_map.*2)) as Hin.
  { apply list_elem_of_filter. split; [done|]. apply elem_of_concat.
    exists ps. split; [done|]. apply list_elem_of_fmap. by exists (x, ps). }
  destruct (filter _ _); [by apply elem_of_nil in Hin|done].
Qed.

End first_fault.

(** Lines 9-41 with an undeclared parent: [KeyError] on the first one. *)
Lemma check_parent_map_first (parent_map : dict (list string)) k fuel :
  NoDup (dict_keys parent_map) →
  first_undeclared parent_map = Some k →
  check_parent_map fuel parent_map = Raises (KeyError k).
Proof.
  intros Hnd Hk. unfold check_parent_map.
  assert (kahn_count fuel parent_map = Raises (KeyError k)) as ->.
  { unfold kahn_count. cbv zeta. rewrite (id_to_index_size parent_map Hnd).
    pose proof (build_graph_first parent_map Hnd parent_map []
                  (replicate (length parent_map) 0%Z) k eq_refl
                  (degrees_initial (length parent_map)) Hk) as Hg.
    change (adj_of (build_id_to_index (dict_keys parent_map)) []
            ++ replicate (length parent_map) [])
      with (replicate (length parent_map) (@nil nat)) in Hg.
    by rewrite Hg. }
  by destruct parent_map.
Qed.

(** ** Index assignment and edge construction *)

Section construction.
Implicit Types (commit_list : list commit) (parent_map : dict (list string)).

(** The keys of the dictionary are the declared identifiers in the order of
    their first declaration. *)
Lemma build_parent_map_key_order commit_list :
  dict_keys (build_parent_map commit_list)
  = reverse (remove_dups (reverse commit_list.*1)).
Proof.
  induction commit_list as [|[c ps] cl IH] using rev_ind; [done|].
  rewrite build_parent_map_snoc, dict_keys_set, fmap_app, reverse_app. csimpl.
  rewrite IH.
  destruct (decide_rel elem_of c (reverse cl.*1)) as [Hin|Hnin].
  - rewrite decide_True; [done|]. by rewrite elem_of_reverse, elem_of_remove_dups.
  - rewrite decide_False by (by rewrite elem_of_reverse, elem_of_remove_dups).
    by rewrite reverse_cons.
Qed.

Lemma concat_fmap_fmap {A B} (f : A → B) (ls : list (list A)) :
  concat ((λ l : list A, f <$> l) <$> ls) = f <$> concat ls.
Proof. induction ls as [|l ls IH]; csimpl; [done|]. by rewrite fmap_app, IH. Qed.

Lemma adj_of_concat (id_to_index : dict nat) parent_map :
  concat (adj_of id_to_index parent_map)
  = index_of id_to_index <$> concat parent_map.*2.
Proof.
  rewrite <-concat_fmap_fmap. f_equal. unfold adj_of.
  rewrite <-list_fmap_compose. done.
Qed.

(** Occurrences of an index among the indices of declared parents are the
    occurrences of its identifier. *)
Lemma count_index_of parent_map v y (l : list string) :
  NoDup (dict_keys parent_map) →
  dict_keys parent_map !! v = Some y →
  Forall (λ p, p ∈ dict_keys parent_map) l →
  count v (index_of (build_id_to_index (dict_keys parent_map)) <$> l)
  = length (filter (y =.) l).
Proof.
  intros Hnd Hv Hl. induction Hl as [|p l Hp _ IH]; [done|]. csimpl.
  destruct (declared_index parent_map Hnd p Hp) as [w Hw].
  unfold index_of at 1. rewrite Hw. simpl.
  destruct (decide (y = p)) as [->|Hne].
  - rewrite filter_cons_True by done. simpl.
    apply id_to_index_get in Hw; [|done].
    assert (w = v) as -> by (by eapply NoDup_lookup).
    by rewrite count_cons_eq, IH.
  - rewrite filter_cons_False by done. rewrite count_cons_ne; [done|].
    intros ->. apply id_to_index_get in Hw; [|done]. congruence.
Qed.

Lemma pm_closed_concat parent_map :
  pm_closed parent_map →
  Forall (λ p, p ∈ dict_keys parent_map) (concat parent_map.*2).
Proof.
  unfold pm_closed. rewrite !Forall_forall. intros Hcl p Hp.
  apply elem_of_concat in Hp as (ps & Hp & Hps).
  apply list_elem_of_fmap in Hps as ([x ps'] & -> & Hx).
  specialize (Hcl _ Hx). rewrite Forall_forall in Hcl. by apply Hcl.
Qed.
End construction.

Section further_properties.
Local Open Scope string_scope.
Local Open Scope list_scope.

(** X1. On every input the outcome of [is_acyclic] is determined as
    follows: if some effective parent is not declared, the call raises
    [KeyError] on the first such parent in the iteration order of the
    dictionary and of its parent lists; otherwise it returns the verdict.
    It never raises [IndexError] and never fails to terminate. *)
Theorem X1_outcome (commit_list : list commit) :
  match first_undeclared (build_parent_map commit_list) with
  | Some k =>
      is_acyclic commit_list = Raises (KeyError k) ∧
      ¬ declared commit_list k ∧ ∃ x, edge commit_list x k
  | None =>
      ∃ b, is_acyclic commit_list = Returns b ∧ verdict b (has_cycle commit_list)
  end ∧
  is_acyclic commit_list ≠ Raises IndexError ∧
  is_acyclic commit_list ≠ OutOfFuel.
Proof.
  pose proof (build_parent_map_nodup commit_list) as Hnd.
  destruct (first_undeclared (build_parent_map commit_list)) as [k|] eqn:Hk.
  - assert (is_acyclic commit_list = Raises (KeyError k)) as Hr.
    { by apply check_parent_map_first. }
    rewrite Hr. split_and!; [done| | |done..].
    + unfold declared. rewrite <-build_parent_map_keys.
      by apply first_undeclared_spec.
    + destruct (first_undeclared_spec _ Hnd k Hk) as (_ & x & Hx).
      exists x. by apply parent_map_edge.
  - apply first_undeclared_closed, parent_map_closed in Hk.
    destruct (is_acyclic_declared _ Hk) as (b & Hb & Hv). rewrite Hb.
    split_and!; [by exists b|done..].
Qed.

(** X2. Lines 5-14 assign indices in first-declaration order: the keys of
    [parent_map] are the distinct declared identifiers in the order of their
    first declaration, and [id_to_index] maps each of them to its position
    in that order and nothing else to anything. *)
Theorem X2_index_assignment (commit_list : list commit) :
  dict_keys (build_parent_map commit_list)
  = reverse (remove_dups (reverse commit_list.*1)) ∧
  ∀ x i,
    dict_get (build_id_to_index (dict_keys (build_parent_map commit_list))) x = Some i
    ↔ reverse (remove_dups (reverse commit_list.*1)) !! i = Some x.
Proof.
  split; [apply build_parent_map_key_order|]. intros x i.
  rewrite <-build_parent_map_key_order. apply id_to_index_get.
  apply build_parent_map_nodup.
Qed.

(** X3. Lines 16-25 on a parent map whose parents are all keys: the row of
    [adj] at the position of a key lists the indices of its parents in
    order, and [in_degree] at the position of a key is the number of times
    the key is listed as a parent, parallel edges counted separately. *)
Theorem X3_edge_construction (parent_map : dict (list string)) :
  NoDup (dict_keys parent_map) → pm_closed parent_map →
  ∃ adj in_degree,
    build_graph (build_id_to_index (dict_keys parent_map)) parent_map
      (replicate (length parent_map) [], replicate (length parent_map) 0%Z)
    = Returns (adj, in_degree) ∧
    length adj = length parent_map ∧ length in_degree = length parent_map ∧
    (∀ u c ps, parent_map !! u = Some (c, ps) →
       adj !! u
       = Some (index_of (build_id_to_index (dict_keys parent_map)) <$> ps)) ∧
    (∀ v y, dict_keys parent_map !! v = Some y →
       in_degree !! v
       = Some (Z.of_nat (length (filter (y =.) (concat parent_map.*2))))).
Proof.
  intros Hnd Hcl.
  destruct (build_graph_spec parent_map Hnd)
    as [(_ & deg & Hr & Hlen & Hdeg)|(k & [x ps] & He & Hk & Hnk & _)].
  - pose proof (adj_of_length parent_map) as Hadj.
    eexists _, deg. split_and!; [done|done|by rewrite Hlen| |].
    + intros u c ps Hu. unfold adj_of. by rewrite list_lookup_fmap, Hu.
    + intros v y Hv. rewrite Hdeg.
      * by rewrite adj_of_concat, (count_index_of parent_map v y);
          [|done..|apply pm_closed_concat].
      * rewrite Hadj. apply lookup_lt_Some in Hv. unfold dict_keys in Hv.
        by rewrite length_fmap in Hv.
  - exfalso. apply Hnk. unfold pm_closed in Hcl. rewrite Forall_forall in Hcl.
    specialize (Hcl _ He). rewrite Forall_forall in Hcl. by apply Hcl.
Qed.

Lemma X3_witness :
  ∃ adj in_degree,
    build_graph (build_id_to_index ["m"; "x"; "r"])
      [("m", ["x"; "r"; "x"]); ("x", ["r"]); ("r", [])]
      (replicate 3 [], replicate 3 0%Z)
    = Returns (adj, in_degree) ∧
    adj !! 0%nat = Some [1%nat; 2%nat; 1%nat] ∧ in_degree !! 1%nat = Some 2%Z.
Proof.
  destruct (X3_edge_construction [("m", ["x"; "r"; "x"]); ("x", ["r"]); ("r", [])])
    as (adj & in_degree & Hr & _ & _ & Hadj & Hdeg).
  - apply (bool_decide_unpack _). vm_compute. exact I.
  - apply (bool_decide_unpack _). vm_compute. exact I.
  - exists adj, in_degree. split_and!.
    + exact Hr.
    + apply (Hadj 0%nat "m" ["x"; "r"; "x"]). reflexivity.
    + apply (Hdeg 1%nat "x"). reflexivity.
Defined.
End further_properties.

(** ** Changing the declarations *)

Section changes.
Implicit Types (commit_list : list commit) (x y : string).

Lemma returns_declared commit_list b :
  is_acyclic commit_list = Returns b → effective_parents_declared commit_list.
Proof.
  intros Hr. destruct (effective_parents_declared_dec commit_list) as [|Hd]; [done|].
  destruct (is_acyclic_undeclared _ Hd) as (k & ? & _ & _ & Hk). congruence.
Qed.

Lemma returns_true_acyclic commit_list :
  is_acyclic commit_list = Returns true → ¬ has_cycle commit_list.
Proof.
  intros Hr. destruct (is_acyclic_declared _ (returns_declared _ _ Hr)) as (b & Hb & Hv).
  rewrite Hr in Hb. injection Hb as <-. done.
Qed.

Lemma same_elements_same commit_list1 x ps ps' commit_list2 :
  (∀ y, y ∈ ps ↔ y ∈ ps') →
  same_graph (commit_list1 ++ (x, ps) :: commit_list2)
             (commit_list1 ++ (x, ps') :: commit_list2).
Proof.
  intros Hp. split.
  - intros z. unfold declared. by rewrite !fmap_app.
  - intros z y. unfold edge. rewrite !effective_parents_app. simpl.
    destruct (effective_parents commit_list2 z) as [qs|]; [done|].
    case_decide; [|done]. split; intros (qs & [= <-] & Hy); eexists; (split; [done|]).
    + by apply Hp.
    + by apply Hp.
Qed.

Lemma fewer_edges_acyclic commit_list commit_list' :
  (∀ x y, edge commit_list' x y → edge commit_list x y) →
  has_cycle commit_list' → has_cycle commit_list.
Proof.
  intros Hsub [x Hx]. exists x. revert Hx. apply (tc_congruence id). exact Hsub.
Qed.

Lemma root_declaration_edges commit_list r x y :
  edge (commit_list ++ [(r, [])]) x y → edge commit_list x y.
Proof.
  unfold edge. intros (ps & Hx & Hy). rewrite effective_parents_snoc in Hx.
  case_decide; [|by exists ps]. injection Hx as <-. by apply elem_of_nil in Hy.
Qed.

Lemma root_declaration_declared commit_list r :
  effective_parents_declared commit_list →
  effective_parents_declared (commit_list ++ [(r, [])]).
Proof.
  intros Hd x y Hxy%root_declaration_edges. unfold declared.
  rewrite fmap_app, elem_of_app. left. by apply (Hd x).
Qed.

Lemma dict_set_twice {V} (d : dict V) x v w :
  dict_set (dict_set d x v) x w = dict_set d x w.
Proof.
  induction d as [|[k0 v0] d IH]; simpl.
  - by rewrite decide_True.
  - case_decide; simpl.
    + by rewrite decide_True.
    + rewrite decide_False by done. by rewrite IH.
Qed.

Lemma dict_set_comm {V} (d : dict V) x c v w :
  x ∈ dict_keys d → c ≠ x →
  dict_set (dict_set d c v) x w = dict_set (dict_set d x w) c v.
Proof.
  unfold dict_keys. induction d as [|[k0 v0] d IH]; csimpl.
  - by intros ?%elem_of_nil.
  - intros Hx Hne.
    destruct (decide (k0 = c)) as [Hc|Hc]; destruct (decide (k0 = x)) as [Hk|Hk];
      simpl; rewrite ?decide_True, ?decide_False by done; try done.
    + congruence.
    + by rewrite decide_True.
    + rewrite IH; [done| |done]. apply elem_of_cons in Hx as [?|?]; [congruence|done].
Qed.

Lemma build_parent_map_app commit_list1 commit_list2 :
  build_parent_map (commit_list1 ++ commit_list2)
  = foldl (λ (parent_map : dict (list string)) '(commit_id, parents),
             dict_set parent_map commit_id parents)
          (build_parent_map commit_list1) commit_list2.
Proof. unfold build_parent_map. by rewrite foldl_app. Qed.

Lemma override_commutes commit_list x w : ∀ (d : dict (list string)),
  x ∈ dict_keys d → ¬ x ∈ commit_list.*1 →
  dict_set (foldl (λ (parent_map : dict (list string)) '(commit_id, parents),
                     dict_set parent_map commit_id parents) d commit_list) x w
  = foldl (λ (parent_map : dict (list string)) '(commit_id, parents),
             dict_set parent_map commit_id parents) (dict_set d x w) commit_list.
Proof.
  induction commit_list as [|[c qs] cl IH]; intros d Hx Hnx; csimpl in *; [done|].
  apply not_elem_of_cons in Hnx as [Hne Hnx].
  rewrite IH; [|apply elem_of_dict_keys_set; by right|done].
  by rewrite dict_set_comm.
Qed.

(** Re-declaring an identifier at the end builds the same dictionary as
    editing its last declaration in place. *)
Lemma override_in_place commit_list1 x ps ps' commit_list2 :
  ¬ x ∈ commit_list2.*1 →
  build_parent_map (commit_list1 ++ (x, ps) :: commit_list2 ++ [(x, ps')])
  = build_parent_map (commit_list1 ++ (x, ps') :: commit_list2).
Proof.
  intros Hx. rewrite (app_comm_cons commit_list2), app_assoc, build_parent_map_snoc.
  rewrite !build_parent_map_app. simpl.
  rewrite override_commutes; [|apply elem_of_dict_keys_set; by left|done].
  by rewrite dict_set_twice.
Qed.
End changes.

Section further_properties_changes.
Local Open Scope string_scope.
Local Open Scope list_scope.

(** X4. The result does not depend on how often a parent is listed: on an
    input whose effective parents are all declared, replacing the parent
    list of a declaration by one with the same elements (duplicates added
    or removed, any order) leaves the result unchanged. *)
Theorem X4_parallel_edges (l1 l2 : list commit) x ps ps' :
  (∀ y, y ∈ ps ↔ y ∈ ps') →
  effective_parents_declared (l1 ++ (x, ps) :: l2) →
  is_acyclic (l1 ++ (x, ps') :: l2) = is_acyclic (l1 ++ (x, ps) :: l2).
Proof.
  intros Hp Hd. apply same_graph_is_acyclic; [|done]. by apply same_elements_same.
Qed.

Lemma X4_witness :
  is_acyclic [("r", []); ("m", ["r"])] = is_acyclic [("r", []); ("m", ["r"; "r"; "r"])].
Proof.
  apply (X4_parallel_edges [("r", [])] [] "m" ["r"; "r"; "r"] ["r"]).
  - intros y. rewrite !elem_of_cons, elem_of_nil. tauto.
  - apply all_parents_declared_effective.
    apply (bool_decide_unpack _). vm_compute. exact I.
Defined.

(** X5. Acceptance is monotone: if [is_acyclic] returns [true] on a
    sequence, it returns [true] on every sequence whose effective parents
    are declared and whose edges are among those of the first; in
    particular after appending a declaration without parents, for a new or
    an already declared identifier. *)
Theorem X5_fewer_edges (commit_list : list commit) :
  is_acyclic commit_list = Returns true →
  (∀ commit_list',
     effective_parents_declared commit_list' →
     (∀ x y, edge commit_list' x y → edge commit_list x y) →
     is_acyclic commit_list' = Returns true) ∧
  (∀ r, is_acyclic (commit_list ++ [(r, [])]) = Returns true).
Proof.
  intros Hr. pose proof (returns_true_acyclic _ Hr) as Hno.
  assert (∀ commit_list',
     effective_parents_declared commit_list' →
     (∀ x y, edge commit_list' x y → edge commit_list x y) →
     is_acyclic commit_list' = Returns true) as Hmono.
  { intros cl' Hd Hsub. apply is_acyclic_true; [done|].
    intros Hc. by apply Hno, (fewer_edges_acyclic _ cl'). }
  split; [done|]. intros r. apply Hmono.
  - by eapply root_declaration_declared, returns_declared.
  - intros x y. apply root_declaration_edges.
Qed.

Lemma X5_witness :
  is_acyclic ([("a", []); ("b", ["a"]); ("c", ["b"])] ++ [("b", [])]) = Returns true.
Proof.
  apply (X5_fewer_edges [("a", []); ("b", ["a"]); ("c", ["b"])]).
  vm_compute. reflexivity.
Defined.

(** X6. Re-declaring an identifier at the end of the sequence is the same as
    editing its last declaration in place: lines 5-7 build the same
    dictionary, so the outcome is the same, whichever it is. *)
Theorem X6_override_in_place (l1 l2 : list commit) x ps ps' :
  ¬ x ∈ l2.*1 →
  build_parent_map (l1 ++ (x, ps) :: l2 ++ [(x, ps')])
  = build_parent_map (l1 ++ (x, ps') :: l2) ∧
  is_acyclic (l1 ++ (x, ps) :: l2 ++ [(x, ps')]) = is_acyclic (l1 ++ (x, ps') :: l2).
Proof.
  intros Hx. pose proof (override_in_place l1 x ps ps' l2 Hx) as Hpm.
  split; [done|].
  rewrite <-(is_acyclic_fuel_enough
               (length (l1 ++ (x, ps) :: l2 ++ [(x, ps')])) (l1 ++ (x, ps') :: l2)).
  - unfold is_acyclic, is_acyclic_fuel. by rewrite Hpm.
  - etrans; [apply build_parent_map_length|].
    rewrite !length_app. simpl. rewrite length_app. simpl. lia.
Qed.

Lemma X6_witness :
  is_acyclic ([] ++ ("root1", []) ::
              [("root2", []); ("devA", ["root1"]); ("devB", ["devA"]);
               ("mergeX", ["devB"; "devA"])] ++ [("root1", ["mergeX"])])
  = is_acyclic ([] ++ ("root1", ["mergeX"]) ::
                [("root2", []); ("devA", ["root1"]); ("devB", ["devA"]);
                 ("mergeX", ["devB"; "devA"])]).
Proof.
  apply (X6_override_in_place []
           [("root2", []); ("devA", ["root1"]); ("devB", ["devA"]);
            ("mergeX", ["devB"; "devA"])]
           "root1" [] ["mergeX"]).
  apply (bool_decide_unpack _). vm_compute. exact I.
Defined.
End further_properties_changes.

(** ** Independent histories *)

Section independent.
Context (commit_list1 commit_list2 : list commit).
Context (Hdisj : ∀ x, declared commit_list1 x → ¬ declared commit_list2 x).

Lemma edge_declared (commit_list : list commit) x y :
  edge commit_list x y → declared commit_list x.
Proof. intros (ps & Hx & _). apply effective_parents_declared_iff. eauto. Qed.

Lemma tc_edge_declared (commit_list : list commit) x y :
  tc (edge commit_list) x y → declared commit_list x.
Proof. intros H. destruct H as [? ? H|? ? ? H _]; exact (edge_declared _ _ _ H). Qed.

Lemma app_edge x y :
  edge (commit_list1 ++ commit_list2) x y
  ↔ edge commit_list1 x y ∨ edge commit_list2 x y.
Proof.
  split.
  - intros (ps & Hx & Hy). rewrite effective_parents_app in Hx.
    destruct (effective_parents commit_list2 x) as [qs|] eqn:H2.
    + injection Hx as ->. right. by exists ps.
    + left. by exists ps.
  - intros [H1|(ps & Hx & Hy)].
    + pose proof (edge_declared _ _ _ H1) as Hd. destruct H1 as (ps & Hx & Hy).
      exists ps. split; [|done]. rewrite effective_parents_app.
      destruct (effective_parents commit_list2 x) as [qs|] eqn:H2; [|done].
      destruct (Hdisj x Hd). apply effective_parents_declared_iff. eauto.
    + exists ps. split; [|done]. by rewrite effective_parents_app, Hx.
Qed.

Lemma app_declared x :
  declared (commit_list1 ++ commit_list2) x
  ↔ declared commit_list1 x ∨ declared commit_list2 x.
Proof. unfold declared. by rewrite fmap_app, elem_of_app. Qed.

Lemma app_parents_declared :
  effective_parents_declared commit_list1 → effective_parents_declared commit_list2 →
  effective_parents_declared (commit_list1 ++ commit_list2).
Proof.
  intros Hd1 Hd2 x y [H1|H2]%app_edge; apply app_declared.
  - left. by apply (Hd1 x).
  - right. by apply (Hd2 x).
Qed.

(** A walk that starts in a closed part of a graph never leaves it. *)
Lemma tc_stays {A} (R R1 : relation A) (D : A → Prop) x y :
  (∀ x y, D x → R x y → R1 x y ∧ D y) →
  D x → tc R x y → tc R1 x y ∧ D y.
Proof.
  intros Hstep Hx Hxy. induction Hxy as [x y Hxy|x z y Hxz _ IH].
  - destruct (Hstep _ _ Hx Hxy). split; [by apply tc_once|done].
  - destruct (Hstep _ _ Hx Hxz) as [H1 Hz]. destruct (IH Hz). split; [|done].
    by eapply tc_l.
Qed.

Lemma app_cycle :
  effective_parents_declared commit_list1 → effective_parents_declared commit_list2 →
  has_cycle (commit_list1 ++ commit_list2)
  ↔ has_cycle commit_list1 ∨ has_cycle commit_list2.
Proof.
  intros Hd1 Hd2. split.
  - intros [x Hx].
    assert (declared commit_list1 x ∨ declared commit_list2 x) as [H1|H2].
    { apply app_declared. exact (tc_edge_declared _ _ _ Hx). }
    + left. exists x.
      apply (tc_stays (edge (commit_list1 ++ commit_list2)) (edge commit_list1)
               (declared commit_list1) x x); [|done..].
      intros a b Ha [Hab|Hab]%app_edge.
      * split; [done|]. by apply (Hd1 a).
      * destruct (Hdisj a Ha). by eapply edge_declared.
    + right. exists x.
      apply (tc_stays (edge (commit_list1 ++ commit_list2)) (edge commit_list2)
               (declared commit_list2) x x); [|done..].
      intros a b Ha [Hab|Hab]%app_edge.
      * destruct (Hdisj a); [by eapply edge_declared|done].
      * split; [done|]. by apply (Hd2 a).
  - intros [[x Hx]|[x Hx]]; exists x; revert Hx; apply (tc_congruence id);
      intros a b Hab; apply app_edge; auto.
Qed.
End independent.

(** ** Redirecting a node of a chain *)

Section redirect.
Context (root : string) (ids : list string) (Hnd : NoDup (root :: ids)).
Context (i j : nat) (c t : string).
Context (Hi : (root :: ids) !! i = Some c) (Hj : (root :: ids) !! j = Some t).
Context (Hij : i ≤ j).
Let redirected := <[i := (c, [t])]> (chain root ids).

Lemma chain_from_lookup prev (l : list string) k x p :
  (prev :: l) !! k = Some p → l !! k = Some x →
  chain_from prev l !! k = Some (x, [p]).
Proof.
  revert prev k. induction l as [|x0 l IH]; intros prev k Hp Hx; [done|].
  destruct k as [|k]; simplify_eq/=; [done|]. by apply IH.
Qed.

Lemma chain_keys : (chain root ids).*1 = root :: ids.
Proof. unfold chain. csimpl. by rewrite chain_from_keys. Qed.

Lemma redirected_keys : redirected.*1 = root :: ids.
Proof.
  unfold redirected. rewrite list_fmap_insert, chain_keys. cbn [fst].
  by apply list_insert_id.
Qed.

Lemma redirected_length : i < length (chain root ids).
Proof.
  assert (length (chain root ids) = length (root :: ids)) as ->.
  { rewrite <-chain_keys. by rewrite length_fmap. }
  by eapply lookup_lt_Some.
Qed.

Lemma redirected_edge_new : edge redirected c t.
Proof.
  exists [t]. split; [|left].
  apply effective_parents_nodup; [by rewrite redirected_keys|].
  apply (list_elem_of_lookup_2 _ i). unfold redirected.
  apply list_lookup_insert_eq, redirected_length.
Qed.

Lemma redirected_edge_old k x p :
  S k ≠ i → (root :: ids) !! k = Some p → (root :: ids) !! S k = Some x →
  edge redirected x p.
Proof.
  intros Hk Hp Hx. exists [p]. split; [|left].
  apply effective_parents_nodup; [by rewrite redirected_keys|].
  apply (list_elem_of_lookup_2 _ (S k)). unfold redirected.
  rewrite list_lookup_insert_ne by done. unfold chain. simpl.
  by apply chain_from_lookup.
Qed.

Lemma redirected_reaches d : ∀ x,
  (root :: ids) !! (i + d) = Some x → rtc (edge redirected) x c.
Proof.
  induction d as [|d IH]; intros x Hx.
  - rewrite Nat.add_0_r in Hx. assert (x = c) as -> by congruence. apply rtc_refl.
  - rewrite Nat.add_succ_r in Hx.
    destruct (lookup_lt_is_Some_2 (root :: ids) (i + d)) as [p Hp].
    { apply lookup_lt_Some in Hx. lia. }
    eapply rtc_l; [|by apply IH]. apply (redirected_edge_old (i + d)); [lia|done..].
Qed.

Lemma redirected_cycle : has_cycle redirected.
Proof.
  exists c. eapply tc_rtc_r; [apply tc_once, redirected_edge_new|].
  apply (redirected_reaches (j - i)). by replace (i + (j - i)) with j by lia.
Qed.

Lemma redirected_declared : all_parents_declared redirected.
Proof.
  intros x ps p [k Hk]%list_elem_of_lookup_1 Hp. unfold declared.
  rewrite redirected_keys. unfold redirected in Hk.
  destruct (decide (i = k)) as [<-|Hne].
  - rewrite list_lookup_insert_eq in Hk by apply redirected_length.
    injection Hk as <- <-. apply list_elem_of_singleton in Hp as ->.
    by eapply list_elem_of_lookup_2.
  - rewrite list_lookup_insert_ne in Hk by done.
    rewrite <-chain_keys. apply (chain_declared root ids x ps p); [|done].
    by eapply list_elem_of_lookup_2.
Qed.

Lemma redirected_false : is_acyclic redirected = Returns false.
Proof.
  apply is_acyclic_false; [|apply redirected_cycle].
  apply all_parents_declared_effective, redirected_declared.
Qed.
End redirect.

Section further_properties_inputs.
Local Open Scope string_scope.
Local Open Scope list_scope.

(** X7. Independent histories: for two sequences that declare disjoint sets
    of identifiers and on which [is_acyclic] returns, the concatenation
    returns the conjunction of the two verdicts. *)
Theorem X7_independent_histories (commit_list1 commit_list2 : list commit) b1 b2 :
  (∀ x, declared commit_list1 x → ¬ declared commit_list2 x) →
  is_acyclic commit_list1 = Returns b1 → is_acyclic commit_list2 = Returns b2 →
  is_acyclic (commit_list1 ++ commit_list2) = Returns (b1 && b2).
Proof.
  intros Hdisj H1 H2.
  pose proof (returns_declared _ _ H1) as Hd1.
  pose proof (returns_declared _ _ H2) as Hd2.
  destruct (is_acyclic_declared _ Hd1) as (b1' & Hb1 & Hv1).
  destruct (is_acyclic_declared _ Hd2) as (b2' & Hb2 & Hv2).
  assert (b1' = b1) as -> by congruence. assert (b2' = b2) as -> by congruence.
  pose proof (app_cycle _ _ Hdisj Hd1 Hd2) as Hc.
  unfold verdict in *. destruct b1, b2; simpl.
  - apply is_acyclic_true; [by apply app_parents_declared|]. tauto.
  - apply is_acyclic_false; [by apply app_parents_declared|]. tauto.
  - apply is_acyclic_false; [by apply app_parents_declared|]. tauto.
  - apply is_acyclic_false; [by apply app_parents_declared|]. tauto.
Qed.

Lemma X7_witness :
  is_acyclic ([("a", []); ("b", ["a"])] ++ [("p", ["q"]); ("q", ["p"])])
  = Returns (true && false).
Proof.
  apply X7_independent_histories.
  - intros x Hx Hx'. unfold declared in *. simpl in *.
    rewrite !elem_of_cons, elem_of_nil in Hx, Hx'.
    destruct Hx as [->|[->|[]]]; destruct Hx' as [?|[?|[]]]; discriminate.
  - vm_compute. reflexivity.
  - vm_compute. reflexivity.
Defined.

(** X8. In a chain of distinct nodes, replacing in place the declaration of
    any node by one whose only parent is that node itself or a later node
    of the chain makes [is_acyclic] return [false]. *)
Theorem X8_redirect_in_chain root ids i j c t :
  NoDup (root :: ids) →
  (root :: ids) !! i = Some c → (root :: ids) !! j = Some t → (i ≤ j)%nat →
  is_acyclic (<[i := (c, [t])]> (chain root ids)) = Returns false.
Proof. intros Hnd Hi Hj Hij. exact (redirected_false root ids Hnd i j c t Hi Hj Hij). Qed.

Lemma X8_witness :
  is_acyclic (<[1%nat := ("c1", ["c3"])]> (chain "c0" ["c1"; "c2"; "c3"; "c4"]))
  = Returns false.
Proof.
  apply (X8_redirect_in_chain "c0" ["c1"; "c2"; "c3"; "c4"] 1 3 "c1" "c3").
  - apply (bool_decide_unpack _). vm_compute. exact I.
  - reflexivity.
  - reflexivity.
  - lia.
Defined.
End further_properties_inputs.

(** ** How many nodes the loop visits *)

Section visited.
Context (adj : list (list nat)).

(** Lines 32-39 leave the invariant with an empty queue. *)
Lemma kahn_loop_exit fuel : ∀ seen in_degree queue,
  adj_closed adj →
  kahn_inv adj seen [] in_degree queue →
  length adj ≤ length seen + fuel →
  ∃ seen' in_degree',
    kahn_loop fuel adj in_degree queue (length seen) = Returns (length seen') ∧
    kahn_inv adj seen' [] in_degree' [].
Proof.
  induction fuel as [|fuel IH]; intros seen in_degree queue Hcl Hinv Hfuel.
  - destruct queue as [|node queue]; [by exists seen, in_degree|].
    exfalso. destruct Hinv as [Hnd Hr _ _ _ _ _].
    pose proof (nodup_bounded _ _ Hnd Hr) as Hb.
    rewrite length_app in Hb. simpl in Hb. lia.
  - destruct queue as [|node queue]; [by exists seen, in_degree|].
    pose proof (dequeue_inv _ _ _ _ _ Hcl Hinv) as Hinv1.
    destruct (relax_all_inv _ _ _ _ _ Hinv1) as (d2 & q2 & Hf & Hinv2).
    destruct (IH _ _ _ Hcl Hinv2) as (seen' & d' & Hloop & Hfin).
    { rewrite length_app. simpl. lia. }
    exists seen', d'. split; [|done]. cbn [kahn_loop]. unfold list_item.
    assert (node < length adj) as Hn.
    { destruct Hinv as [_ Hr _ _ _ _ _]. apply Hr, elem_of_app. right. left. }
    destruct (lookup_lt_is_Some_2 adj node Hn) as [r Hrow].
    rewrite Hrow. cbn [bind]. rewrite (row_lookup _ _ _ Hrow) in Hf.
    rewrite Hf. cbn [bind fst snd].
    rewrite length_app in Hloop. simpl in Hloop. done.
Qed.

(** At the exit, every edge into a visited node leaves a visited node. *)
Lemma exit_preds seen in_degree u v :
  kahn_inv adj seen [] in_degree [] → v ∈ seen → iedge adj u v → u ∈ seen.
Proof.
  intros Hinv Hv Huv. destruct (inv_seen_nodup _ _ _ _ _ Hinv) as [Hnds Hlts].
  destruct Hinv as [_ _ _ _ Hdeg Hzero _]. rewrite app_nil_r in Hzero.
  pose proof (Hlts v Hv) as Hlt. apply (preds_seen adj seen v); [done..| |done].
  apply (Hzero v Hlt) in Hv. rewrite (Hdeg v Hlt), count_nil in Hv.
  injection Hv as Hv. lia.
Qed.

Lemma exit_upstream seen in_degree x v :
  kahn_inv adj seen [] in_degree [] → rtc (iedge adj) x v → v ∈ seen → x ∈ seen.
Proof.
  intros Hinv. revert v. apply (rtc_ind_r (λ v, v ∈ seen → x ∈ seen) x); [done|].
  intros y z _ Hyz IH Hz. apply IH. by eapply exit_preds.
Qed.

Lemma walk_reach_last l : ∀ a v,
  walk adj (a :: l) → last (a :: l) = Some v → rtc (iedge adj) a v.
Proof.
  induction l as [|b l IH]; intros a v [Hab Hw] Hlast.
  - simpl in Hlast. injection Hlast as ->. apply rtc_refl.
  - rewrite last_cons_cons in Hlast. eapply rtc_l; [done|]. by apply IH.
Qed.

Lemma walk_repeats_to l v :
  walk adj l → last l = Some v →
  NoDup l ∨ ∃ x, tc (iedge adj) x x ∧ rtc (iedge adj) x v.
Proof.
  induction l as [|a l IH]; intros Hw Hlast; [left; constructor|].
  destruct l as [|b l]; [left; apply NoDup_singleton|].
  destruct IH as [Hnd|?]; [apply Hw|by rewrite last_cons_cons in Hlast| |by right].
  destruct (decide (a ∈ b :: l)) as [Hin|Hnin].
  - right. exists a. split; [by apply walk_reach with (b :: l)|].
    by apply (walk_reach_last (b :: l)).
  - left. by constructor.
Qed.

Lemma backward_walk_to (unseen : nat → Prop) v k :
  unseen v →
  (∀ v, unseen v → ∃ u, unseen u ∧ iedge adj u v) →
  ∃ l, length l = S k ∧ walk adj l ∧ (∀ u, u ∈ l → unseen u) ∧ last l = Some v.
Proof.
  intros Hv Hpred. induction k as [|k (l & Hlen & Hw & Hl & Hlast)].
  - exists [v]. split_and!; [done..| |done]. by intros u ->%list_elem_of_singleton.
  - destruct l as [|a l]; [done|].
    destruct (Hpred a) as (u & Hu & Hua); [apply Hl; left|].
    exists (u :: a :: l). split_and!; [simpl in *; lia|by split| |by rewrite last_cons_cons].
    intros u' [->|?]%elem_of_cons; auto.
Qed.

(** A node of a set in which every node has a predecessor is on a cycle or
    downstream of one. *)
Lemma unseen_downstream (unseen : nat → Prop) v :
  unseen v → (∀ v, unseen v → v < length adj) →
  (∀ v, unseen v → ∃ u, unseen u ∧ iedge adj u v) →
  ∃ x, tc (iedge adj) x x ∧ rtc (iedge adj) x v.
Proof.
  intros Hv Hlt Hpred.
  destruct (backward_walk_to unseen v (length adj) Hv Hpred)
    as (l & Hlen & Hw & Hl & Hlast).
  destruct (walk_repeats_to l v Hw Hlast) as [Hnd|?]; [|done].
  assert (length l ≤ length adj); [|lia].
  apply nodup_bounded; [done|]. intros u Hu. auto.
Qed.

(** Lines 27-39 return the number of nodes that are neither on a cycle nor
    reachable from one: the length of a duplicate-free list of them. *)
Lemma kahn_visited fuel in_degree :
  adj_closed adj → degrees_of adj in_degree → length adj ≤ fuel →
  ∃ queue seen,
    init_queue (length adj) in_degree = Returns queue ∧
    kahn_loop fuel adj in_degree queue 0 = Returns (length seen) ∧
    NoDup seen ∧
    ∀ v, v ∈ seen ↔
         v < length adj ∧ ¬ ∃ x, tc (iedge adj) x x ∧ rtc (iedge adj) x v.
Proof.
  intros Hcl Hd Hfuel.
  destruct (init_queue_spec adj in_degree Hd) as (queue & Hq & Hinv).
  destruct (kahn_loop_exit fuel [] in_degree queue Hcl Hinv) as (seen & d' & Hl & Hex).
  { simpl. lia. }
  destruct (inv_final _ _ _ Hex) as (Hnd & Hlt & Hac & Hpred).
  exists queue, seen. split_and!; [done..|]. intros v. split.
  - intros Hv. split; [by apply Hlt|]. intros (x & Hx & Hxv).
    apply (Hac x); [|done]. by eapply exit_upstream.
  - intros [Hv Hno]. destruct (decide (v ∈ seen)) as [|Hnv]; [done|].
    destruct Hno. apply (unseen_downstream (λ v, v < length adj ∧ ¬ v ∈ seen) v).
    + done.
    + by intros ? [? _].
    + intros w [Hw Hnw]. destruct (Hpred w Hw Hnw) as (u & ? & ? & ?). eauto.
Qed.
End visited.

Section visited_keys.
Context (parent_map : dict (list string)) (Hnd : NoDup (dict_keys parent_map)).
Context (Hclosed : pm_closed parent_map).
Let id_to_index := build_id_to_index (dict_keys parent_map).
Let adj := adj_of id_to_index parent_map.

Lemma key_of_index_of y :
  y ∈ dict_keys parent_map →
  key_of parent_map (index_of id_to_index y) = y ∧
  index_of id_to_index y < length parent_map.
Proof.
  intros Hy. destruct (declared_index parent_map Hnd y Hy) as [v Hv].
  unfold index_of. fold id_to_index in Hv. rewrite Hv. simpl.
  split; [|by eapply index_range].
  apply id_to_index_get in Hv; [|done]. unfold key_of. by rewrite Hv.
Qed.

Lemma index_of_key_of v :
  v < length parent_map →
  index_of id_to_index (key_of parent_map v) = v ∧
  key_of parent_map v ∈ dict_keys parent_map.
Proof.
  intros Hv. destruct (lookup_lt_is_Some_2 (dict_keys parent_map) v) as [y Hy].
  { unfold dict_keys. by rewrite length_fmap. }
  unfold key_of. rewrite Hy. simpl. split; [|by eapply list_elem_of_lookup_2].
  unfold index_of. apply id_to_index_get in Hy; [|done].
  fold id_to_index in Hy. by rewrite Hy.
Qed.

(** Lines 12-39: the loop counts the keys that are neither on a cycle of the
    parent map nor reachable from one along parent edges. *)
Lemma kahn_count_visited fuel :
  length parent_map ≤ fuel →
  ∃ visited : list string,
    kahn_count fuel parent_map = Returns (length visited, length parent_map) ∧
    NoDup visited ∧
    ∀ y, y ∈ visited ↔
         y ∈ dict_keys parent_map ∧
         ¬ ∃ x, tc (pm_edge parent_map) x x ∧ rtc (pm_edge parent_map) x y.
Proof.
  intros Hfuel. unfold kahn_count. cbv zeta. rewrite (id_to_index_size parent_map Hnd).
  destruct (build_graph_spec parent_map Hnd)
    as [(_ & deg & -> & Hdeg)|(k & [x ps] & He & Hk & Hnk & _)].
  - cbn [bind fst snd]. fold id_to_index adj in Hdeg |- *.
    pose proof (adj_of_length parent_map) as Hlen. fold id_to_index adj in Hlen.
    destruct (kahn_visited adj fuel deg (adj_of_closed parent_map Hnd Hclosed) Hdeg)
      as (queue & seen & Hq & Hloop & Hnds & Hseen); [by rewrite Hlen|].
    rewrite Hlen in *. rewrite Hq. cbn [bind]. rewrite Hloop. cbn [bind].
    exists (key_of parent_map <$> seen). split_and!.
    + by rewrite length_fmap.
    + apply NoDup_fmap_2_strong; [|done]. intros u v Hu Hv Huv.
      apply Hseen in Hu as [Hu _]. apply Hseen in Hv as [Hv _].
      destruct (index_of_key_of u Hu) as [<- _].
      destruct (index_of_key_of v Hv) as [<- _]. by rewrite Huv.
    + intros y. rewrite list_elem_of_fmap. split.
      * intros (v & -> & [Hv Hno]%Hseen).
        destruct (index_of_key_of v Hv) as [Hiv Hkey]. split; [done|].
        intros (x & Hx & Hxy). apply Hno. exists (index_of id_to_index x). split.
        -- by apply (tc_congruence (index_of id_to_index) _ x x
                       (pm_edge_iedge parent_map Hnd)).
        -- rewrite <-Hiv.
           by apply (rtc_congruence (index_of id_to_index) _ x (key_of parent_map v)
                       (pm_edge_iedge parent_map Hnd)).
      * intros [Hy Hno]. destruct (key_of_index_of y Hy) as [Hky Hlt].
        exists (index_of id_to_index y). split; [done|]. apply Hseen.
        split; [done|]. intros (u & Hu & Huy). apply Hno.
        exists (key_of parent_map u). split.
        -- by apply (tc_congruence (key_of parent_map) _ u u
                       (iedge_pm_edge parent_map Hnd Hclosed)).
        -- rewrite <-Hky.
           by apply (rtc_congruence (key_of parent_map) _ u (index_of id_to_index y)
                       (iedge_pm_edge parent_map Hnd Hclosed)).
  - exfalso. apply Hnk. unfold pm_closed in Hclosed. rewrite Forall_forall in Hclosed.
    specialize (Hclosed _ He). rewrite Forall_forall in Hclosed. by apply Hclosed.
Qed.
End visited_keys.

Section further_properties_visited.
Local Open Scope string_scope.
Local Open Scope list_scope.

(** X9. On an input whose effective parents are all declared,
    [visited_count] at the end of the loop is the number of declared
    identifiers that are neither on a cycle nor reachable from a node of a
    cycle along child-to-parent edges: it is the length of every
    duplicate-free list of exactly those identifiers. *)
Theorem X9_visited_count (commit_list : list commit) :
  effective_parents_declared commit_list →
  ∃ visited_count,
    kahn_count (length commit_list) (build_parent_map commit_list)
    = Returns (visited_count, length (build_parent_map commit_list)) ∧
    (∃ ids : list string, NoDup ids ∧
       ∀ y, y ∈ ids ↔
            declared commit_list y ∧
            ¬ ∃ x, tc (edge commit_list) x x ∧ rtc (edge commit_list) x y) ∧
    ∀ ids : list string,
      NoDup ids →
      (∀ y, y ∈ ids ↔
            declared commit_list y ∧
            ¬ ∃ x, tc (edge commit_list) x x ∧ rtc (edge commit_list) x y) →
      visited_count = length ids.
Proof.
  intros Hd%parent_map_closed.
  destruct (kahn_count_visited _ (build_parent_map_nodup commit_list) Hd
              (length commit_list) (build_parent_map_length commit_list))
    as (visited & Hr & Hndv & Hv).
  assert (∀ a b, tc (pm_edge (build_parent_map commit_list)) a b
                 ↔ tc (edge commit_list) a b) as Htc.
  { intros a b. split; apply (tc_congruence id); intros ? ?; apply parent_map_edge. }
  assert (∀ a b, rtc (pm_edge (build_parent_map commit_list)) a b
                 ↔ rtc (edge commit_list) a b) as Hrtc.
  { intros a b. split; apply (rtc_congruence id); intros ? ?; apply parent_map_edge. }
  assert (∀ y, y ∈ visited ↔
            declared commit_list y ∧
            ¬ ∃ x, tc (edge commit_list) x x ∧ rtc (edge commit_list) x y) as Hv'.
  { intros y. rewrite Hv. unfold declared. rewrite build_parent_map_keys.
    split; intros [Hy Hno]; (split; [done|]); intros (x & Hx & Hxy); apply Hno;
      exists x; split; by (apply Htc || apply Hrtc). }
  exists (length visited). split_and!; [done|by exists visited|].
  intros ids Hnd Hids. apply Permutation_length, NoDup_Permutation; [done..|].
  intros y. by rewrite Hv', Hids.
Qed.

Lemma X9_witness :
  ∃ visited_count,
    kahn_count 4 (build_parent_map [("a", []); ("p", ["q"; "a"]); ("q", ["p"]); ("d", ["a"])])
    = Returns (visited_count, 4%nat) ∧
    ∃ ids : list string, NoDup ids ∧ visited_count = length ids ∧
      ∀ y, y ∈ ids ↔
           declared [("a", []); ("p", ["q"; "a"]); ("q", ["p"]); ("d", ["a"])] y ∧
           ¬ ∃ x, tc (edge [("a", []); ("p", ["q"; "a"]); ("q", ["p"]); ("d", ["a"])]) x x ∧
                  rtc (edge [("a", []); ("p", ["q"; "a"]); ("q", ["p"]); ("d", ["a"])]) x y.
Proof.
  destruct (X9_visited_count [("a", []); ("p", ["q"; "a"]); ("q", ["p"]); ("d", ["a"])])
    as (visited_count & Hr & (ids & Hnd & Hids) & Hcount).
  - apply all_parents_declared_effective.
    apply (bool_decide_unpack _). vm_compute. exact I.
  - exists visited_count. split; [exact Hr|].
    exists ids. split_and!; [exact Hnd|exact (Hcount ids Hnd Hids)|exact Hids].
Defined.
End further_properties_visited.

(** ** Extending a history *)

Section extension.
Context (commit_list : list commit) (x : string) (ps : list string).
Context (Hnew : ¬ declared commit_list x).
Context (Hps : ∀ p, p ∈ ps → declared commit_list p).
Context (Hd : effective_parents_declared commit_list).

Lemma extension_edge a b :
  edge (commit_list ++ [(x, ps)]) a b ↔ edge commit_list a b ∨ (a = x ∧ b ∈ ps).
Proof.
  unfold edge. setoid_rewrite effective_parents_snoc. split.
  - intros (qs & Ha & Hb). case_decide; [|left; by exists qs].
    injection Ha as <-. right. by split.
  - intros [(qs & Ha & Hb)|[-> Hb]].
    + exists qs. split; [|done]. rewrite decide_False; [done|]. intros <-.
      apply Hnew, effective_parents_declared_iff. eauto.
    + exists ps. by rewrite decide_True.
Qed.

Lemma extension_declared : effective_parents_declared (commit_list ++ [(x, ps)]).
Proof.
  intros a b [Hab|[-> Hb]]%extension_edge; unfold declared;
    rewrite fmap_app, elem_of_app; left.
  - by apply (Hd a).
  - by apply Hps.
Qed.

Lemma extension_step a b :
  declared commit_list a → edge (commit_list ++ [(x, ps)]) a b →
  edge commit_list a b ∧ declared commit_list b.
Proof.
  intros Ha [Hab|[-> _]]%extension_edge; [|done]. split; [done|]. by apply (Hd a).
Qed.

(** The new node has no incoming edge, so it is on no cycle. *)
Lemma extension_cycle :
  has_cycle (commit_list ++ [(x, ps)]) ↔ has_cycle commit_list.
Proof.
  split.
  - intros [y Hy]. exists y.
    assert (declared commit_list y) as Hdy.
    { destruct (tc_last _ _ _ Hy) as (z & _ & Hzy).
      apply extension_edge in Hzy as [Hzy|[-> Hin]]; [by apply (Hd z)|by apply Hps]. }
    apply (tc_stays (edge (commit_list ++ [(x, ps)])) (edge commit_list)
             (declared commit_list) y y); [|done..].
    intros a b. apply extension_step.
  - intros [y Hy]. exists y. revert Hy. apply (tc_congruence id).
    intros a b Hab. apply extension_edge. by left.
Qed.
End extension.

Section store_again.
Implicit Types (h : heap).

Lemma is_acyclic_heap_frame h (commit_list : loc) :
  h ⊆ (is_acyclic_heap h commit_list).2.
Proof.
  unfold is_acyclic_heap. destruct (h !! commit_list) as [[items|]|]; [|done..].
  apply store_copies_frame.
Qed.

Lemma represents_weaken h h' (commit_list : loc) cl :
  h ⊆ h' → represents h commit_list cl → represents h' commit_list cl.
Proof.
  intros Hsub (items & Harg & Hitems). exists items.
  split; [by eapply lookup_weaken|].
  eapply Forall2_impl; [done|]. intros it d [? ?]. split; [done|].
  by eapply lookup_weaken.
Qed.
End store_again.

Section further_properties_extension.
Local Open Scope string_scope.
Local Open Scope list_scope.

(** X10. Appending a commit with a new identifier whose parents are all
    declared already does not change the verdict: if [is_acyclic] returns
    [b] on a sequence, it returns [b] on the extended sequence. *)
Theorem X10_append_new_commit (commit_list : list commit) x ps b :
  ¬ declared commit_list x → (∀ p, p ∈ ps → declared commit_list p) →
  is_acyclic commit_list = Returns b →
  is_acyclic (commit_list ++ [(x, ps)]) = Returns b.
Proof.
  intros Hnew Hps Hr. pose proof (returns_declared _ _ Hr) as Hd.
  pose proof (extension_declared commit_list x ps Hnew Hps Hd) as Hd'.
  pose proof (extension_cycle commit_list x ps Hnew Hps Hd) as Hc.
  destruct (is_acyclic_declared _ Hd) as (b' & Hb & Hv).
  assert (b' = b) as -> by congruence.
  unfold verdict in Hv. destruct b.
  - apply is_acyclic_true; [done|]. by rewrite Hc.
  - apply is_acyclic_false; [done|]. by rewrite Hc.
Qed.

Lemma X10_witness :
  is_acyclic ([("root", []); ("x", ["root"]); ("y", ["root"])] ++ [("m", ["x"; "y"])])
  = Returns true.
Proof.
  apply X10_append_new_commit.
  - unfold declared. apply (bool_decide_unpack _). vm_compute. exact I.
  - intros p Hp. unfold declared. simpl.
    rewrite !elem_of_cons, elem_of_nil in Hp. rewrite !elem_of_cons.
    destruct Hp as [->|[->|[]]]; auto.
  - vm_compute. reflexivity.
Defined.

(** X11. In the store model a second call, on the store the first call
    leaves, gives the same outcome as the first, and every object that
    existed before the first call is still unchanged after the second. *)
Theorem X11_second_call (h : heap) (commit_list : loc) cl :
  represents h commit_list cl →
  (is_acyclic_heap (is_acyclic_heap h commit_list).2 commit_list).1
  = (is_acyclic_heap h commit_list).1 ∧
  ∀ l o, h !! l = Some o →
    (is_acyclic_heap (is_acyclic_heap h commit_list).2 commit_list).2 !! l = Some o.
Proof.
  intros Hrep.
  pose proof (is_acyclic_heap_frame h commit_list) as H1.
  pose proof (is_acyclic_heap_frame (is_acyclic_heap h commit_list).2 commit_list) as H2.
  split.
  - rewrite (is_acyclic_heap_result h commit_list cl Hrep).
    apply is_acyclic_heap_result. by eapply represents_weaken.
  - intros l o Hl. eapply lookup_weaken; [|exact H2]. by eapply lookup_weaken.
Qed.

Lemma X11_witness :
  (is_acyclic_heap (is_acyclic_heap example_heap 1).2 1).1
  = (is_acyclic_heap example_heap 1).1.
Proof.
  apply (X11_second_call example_heap 1 [("A", ["B"]); ("B", []); ("A", ["B"])]).
  exists [("A", 2%positive); ("B", 3%positive); ("A", 2%positive)].
  split; [reflexivity|]. repeat constructor.
Defined.
End further_properties_extension.
